(** * friendlyshell: command dispatch, session nesting and history isolation

    A shallow embedding of [friendlyshell/base_shell.py] (class [BaseShell])
    and of the two context managers of
    [friendlyshell/command_complete_mixin.py], followed by the properties
    of the dispatch engine that the design document states.

    Conventions of the embedding.
    - Python objects live in a store: a shell instance is a location, its
      attributes are a record, and a location that was never written holds
      the attributes [__init__] gives.
    - A Python call either returns or raises; mutations done before a raise
      stay.  [M A] is the corresponding state-and-exception monad.
    - Python bounds recursion: a call nested deeper than the interpreter
      allows raises [RecursionError].  The recursive methods take the number
      of frames still available.
    - What leaves the engine is recorded, in order, in the [trace] of the
      world: text handed to the output sinks, prompts, calls of the
      tokenizer and calls of command handlers.  The sinks render a message
      and its arguments with the [%] operator, which raises on a message
      it cannot render; [BaseShell.debug] is [pass] and records nothing.
    - A history file is a list of lines, as the line-editing library
      writes and reads it. *)

From Stdlib Require Import ZArith String Ascii List Lia.
From stdpp Require Import base option gmap strings list.

Local Open Scope string_scope.
Local Open Scope list_scope.

(** ** Python values used by the engine *)

(** The exception classes the engine tells apart.  The first three derive
    from [BaseException] only; the others derive from [Exception], the
    last one standing for every other such class ([ValueError],
    [OverflowError], [AttributeError], the errors of a handler), known by
    a name. *)
Inductive exn :=
| KeyboardInterrupt
| SystemExit
| GeneratorExit
| EOFError
| RecursionError
| TypeError
| OSError
| OtherError (msg : string).

(** [isinstance(e, Exception)] *)
Definition isinstance_Exception (e : exn) : bool :=
  match e with
  | KeyboardInterrupt | SystemExit | GeneratorExit => false
  | _ => true
  end.

Inductive result (A : Type) :=
| Ok (a : A)
| Raise (e : exn).
Arguments Ok {A} a.
Arguments Raise {A} e.

(** [l[i:]] and [l[:i]] for a Python list: a negative index counts from the
    end, and an index outside the list is clamped to it. *)
Definition py_index {A} (l : list A) (i : Z) : nat :=
  let n := Z.of_nat (length l) in
  let j := (if i <? 0 then i + n else i)%Z in
  Z.to_nat (Z.min (Z.max j 0) n).

Definition slice_from {A} (l : list A) (i : Z) : list A := drop (py_index l i) l.
Definition slice_to {A} (l : list A) (i : Z) : list A := take (py_index l i) l.

(** [sep.join(l)] *)
Definition join (sep : string) (l : list string) : string := String.concat sep l.

(** [s * n] *)
Fixpoint str_repeat (s : string) (n : nat) : string :=
  match n with
  | 0 => ""
  | S k => s +:+ str_repeat s k
  end.

(** [s.replace("do_", "")]: every occurrence, scanning from the left,
    occurrences not overlapping.  [skip] counts the characters of a matched
    occurrence still to be dropped. *)
Fixpoint remove_do_from (skip : nat) (s : string) : string :=
  match s with
  | EmptyString => ""
  | String c s' =>
      match skip with
      | S k => remove_do_from k s'
      | 0 => if String.prefix "do_" s then remove_do_from 2 s'
             else String c (remove_do_from 0 s')
      end
  end.
Definition replace_do_ (s : string) : string := remove_do_from 0 s.

(** The characters [\t], [\n] and [\r] of a Python string literal. *)
Definition TAB : ascii := "009".
Definition LF : ascii := "010".
Definition CR : ascii := "013".

(** [s[n:]] for a string and [n >= 0] *)
Definition str_drop (n : nat) (s : string) : string :=
  String.substring n (String.length s - n) s.

(** ** The world the engine runs in *)

Definition loc := nat.

(** Instance attributes of a [BaseShell] ([__init__], lines 21-46).  The
    parser attribute is the tokenizer, a parameter of the engine below. *)
Record shell := Shell {
  prompt : string;
  banner_text : option string;
  _done : bool;
  _input_stream : option nat;
  _parent : option loc;
  comment_delimiter : string
}.

Definition __init__ : shell :=
  {| prompt := "> "; banner_text := None; _done := false;
     _input_stream := None; _parent := None; comment_delimiter := "#" |}.

Inductive level := INFO | WARNING | ERROR.

Inductive pyval :=
| VStr (s : string)
| VInt (n : Z)
| VExn (e : exn).

(** ** The [%] operator

    [message % args] for a string [message] and a tuple [args], as CPython
    evaluates it: the format string is scanned from the left, a conversion
    specifier takes its arguments in order, and the first error ends the
    scan.  The sinks below print the text; the model keeps whether the
    operator returns, and the exception it raises otherwise: [TypeError]
    (too few or too many arguments, an argument of the wrong type, a
    mapping key), [ValueError] (an incomplete or unknown specifier, a width
    or a precision too big) or [OverflowError] (a number out of range).
    Integers are rendered whatever their size. *)

(** [c in chars] for a character *)
Fixpoint char_in (c : ascii) (chars : string) : bool :=
  match chars with
  | EmptyString => false
  | String c' chars' => Ascii.eqb c c' || char_in c chars'
  end.

Definition digit_value (c : ascii) : Z := Z.of_nat (nat_of_ascii c) - 48.

Definition PY_SSIZE_T_MAX : Z := 2 ^ 63 - 1.
Definition INT_MAX : Z := 2 ^ 31 - 1.

(** Where the scan of a format string stands: in plain text, or inside a
    conversion specifier [%[flags][width][.precision][length]type]. *)
Inductive format_state :=
| InText
| AfterPercent
| InFlags
| InWidth (width : Z)
| AfterWidth
| AfterDot
| InPrecision (prec : Z)
| AfterPrecision
| AfterLength.

(** The argument a [*] takes for a width or a precision: an integer that
    fits the C type. *)
Definition star_arg (lo hi : Z) (args : list pyval) : result (list pyval) :=
  match args with
  | [] => Raise TypeError
  | VInt n :: rest =>
      if (lo <=? n)%Z && (n <=? hi)%Z then Ok rest
      else Raise (OtherError "OverflowError")
  | _ :: _ => Raise TypeError
  end.

(** The conversion itself: it takes the next argument, then looks at the
    conversion character. *)
Definition convert (c : ascii) (args : list pyval) : result (list pyval) :=
  match args with
  | [] => Raise TypeError
  | v :: rest =>
      if char_in c "sra" then Ok rest
      else if char_in c "diuoxX" then
        match v with
        | VInt _ => Ok rest
        | _ => Raise TypeError
        end
      else if char_in c "eEfFgG" then
        match v with
        | VInt n =>
            if (Z.abs n <? 2 ^ 1024 - 2 ^ 970)%Z then Ok rest
            else Raise (OtherError "OverflowError")
        | _ => Raise TypeError
        end
      else if Ascii.eqb c "c" then
        match v with
        | VInt n =>
            if (0 <=? n)%Z && (n <? 1114112)%Z then Ok rest
            else Raise (OtherError "OverflowError")
        | VStr s => if (String.length s =? 1)%nat then Ok rest else Raise TypeError
        | VExn _ => Raise TypeError
        end
      else Raise (OtherError "ValueError")
  end.

Definition continue (st : format_state) (r : result (list pyval))
  : result (format_state * list pyval) :=
  match r with
  | Ok args => Ok (st, args)
  | Raise e => Raise e
  end.

Definition at_length (c : ascii) (args : list pyval)
  : result (format_state * list pyval) :=
  if char_in c "hlL" then Ok (AfterLength, args)
  else continue InText (convert c args).

Definition at_precision (c : ascii) (args : list pyval)
  : result (format_state * list pyval) :=
  if Ascii.eqb c "." then Ok (AfterDot, args) else at_length c args.

Definition at_width (c : ascii) (args : list pyval)
  : result (format_state * list pyval) :=
  if Ascii.eqb c "*" then
    continue AfterWidth (star_arg (- PY_SSIZE_T_MAX - 1) PY_SSIZE_T_MAX args)
  else if char_in c "0123456789" then Ok (InWidth (digit_value c), args)
  else at_precision c args.

Definition at_flags (c : ascii) (args : list pyval)
  : result (format_state * list pyval) :=
  if char_in c "-+ #0" then Ok (InFlags, args) else at_width c args.

(** One character of the format string. *)
Definition format_step (st : format_state) (c : ascii) (args : list pyval)
  : result (format_state * list pyval) :=
  match st with
  | InText => if Ascii.eqb c "%" then Ok (AfterPercent, args) else Ok (InText, args)
  | AfterPercent =>
      if Ascii.eqb c "%" then Ok (InText, args)
      else if Ascii.eqb c "(" then Raise TypeError
      else at_flags c args
  | InFlags => at_flags c args
  | InWidth width =>
      if char_in c "0123456789" then
        if ((PY_SSIZE_T_MAX - digit_value c) / 10 <? width)%Z
        then Raise (OtherError "ValueError")
        else Ok (InWidth (width * 10 + digit_value c), args)
      else at_precision c args
  | AfterWidth => at_precision c args
  | AfterDot =>
      if Ascii.eqb c "*" then
        continue AfterPrecision (star_arg (- INT_MAX - 1) INT_MAX args)
      else if char_in c "0123456789" then Ok (InPrecision (digit_value c), args)
      else at_length c args
  | InPrecision prec =>
      if char_in c "0123456789" then
        if ((INT_MAX - digit_value c) / 10 <? prec)%Z
        then Raise (OtherError "ValueError")
        else Ok (InPrecision (prec * 10 + digit_value c), args)
      else at_length c args
  | AfterPrecision => at_length c args
  | AfterLength => continue InText (convert c args)
  end.

Fixpoint format_from (st : format_state) (message : string) (args : list pyval)
  : result unit :=
  match message with
  | EmptyString =>
      match st, args with
      | InText, [] => Ok tt
      | InText, _ :: _ => Raise TypeError
      | _, _ => Raise (OtherError "ValueError")
      end
  | String c message' =>
      match format_step st c args with
      | Ok (st', args') => format_from st' message' args'
      | Raise e => Raise e
      end
  end.

(** [message % args]: [Ok] when the operator returns a string. *)
Definition percent (message : string) (args : list pyval) : result unit :=
  format_from InText message args.

(** ** Output and input

    What leaves the engine. *)
Inductive event :=
| Output (lvl : level) (message : string) (args : list pyval)
| Prompt (text : string)
| Tokenize (line : string)
| Invoke (name : string) (args : list string).

(** One read from an input source: a line, or an exception. *)
Inductive read_event :=
| Returns (line : string)
| Raises (e : exn).

Record World := mkWorld {
  shells : gmap loc shell;
  streams : gmap nat (list read_event);
  stdin : list read_event;
  trace : list event
}.

Definition M (A : Type) : Type := World -> result A * World.

Definition ret {A} (a : A) : M A := fun w => (Ok a, w).
Definition raise {A} (e : exn) : M A := fun w => (Raise e, w).
Definition bind {A B} (m : M A) (k : A -> M B) : M B := fun w =>
  match m w with
  | (Ok a, w') => k a w'
  | (Raise e, w') => (Raise e, w')
  end.

Notation "'let*' x := m 'in' k" := (bind m (fun x => k))
  (at level 10, x name, m at level 100, k at level 200).
Notation "m >>> k" := (bind m (fun _ => k))
  (at level 100, k at level 200, right associativity).

(** Attribute access and assignment on [self]. *)
Definition sh (w : World) (self : loc) : shell := default __init__ (shells w !! self).

Definition set_shell (self : loc) (s : shell) (w : World) : World :=
  {| shells := <[self := s]> (shells w); streams := streams w;
     stdin := stdin w; trace := trace w |}.

Definition set_done (self : loc) (w : World) : World :=
  let s := sh w self in
  set_shell self
    {| prompt := prompt s; banner_text := banner_text s; _done := true;
       _input_stream := _input_stream s; _parent := _parent s;
       comment_delimiter := comment_delimiter s |} w.

Definition emit (e : event) (w : World) : World :=
  {| shells := shells w; streams := streams w; stdin := stdin w;
     trace := trace w ++ [e] |}.

(** The sinks ([BaseShell.info], [warning], [error]: lines 407-444) are
    [print(message % args)]: when the [%] operator raises, nothing is
    printed and the exception leaves the sink; otherwise the text goes to
    standard output, and the trace keeps the message and the arguments it
    was rendered from.  [debug] (446-457) does nothing, whatever it is
    passed. *)
Definition print_percent (lvl : level) (message : string) (args : list pyval)
  : M unit := fun w =>
  match percent message args with
  | Ok _ => (Ok tt, emit (Output lvl message args) w)
  | Raise e => (Raise e, w)
  end.

Definition info (message : string) (args : list pyval) : M unit :=
  print_percent INFO message args.
Definition warning (message : string) (args : list pyval) : M unit :=
  print_percent WARNING message args.
Definition error (message : string) (args : list pyval) : M unit :=
  print_percent ERROR message args.
Definition debug (message : string) (args : list pyval) : M unit :=
  fun w => (Ok tt, w).

(** ** Command handlers and the members of a shell *)

(** The kind of a declared parameter ([inspect.Parameter.kind]): [a] in
    [def f(a, /)], [a] in [def f(a)], [args] in [def f( *args)], [a] in
    [def f( *, a)] and [kwargs] in [def f( **kwargs)]. *)
Inductive parameter_kind :=
| POSITIONAL_ONLY
| POSITIONAL_OR_KEYWORD
| VAR_POSITIONAL
| KEYWORD_ONLY
| VAR_KEYWORD.

(** A declared parameter of a handler ([inspect.Parameter]), [self] not
    included; the default [None] is [inspect.Parameter.empty]. *)
Record parameter := mkParameter {
  param_name : string;
  param_kind : parameter_kind;
  param_default : option string
}.

(** A bound method or static function of a shell.  [returns] is the value
    of the call without arguments when the member is an alias provider;
    [action] is what running the body on bound arguments does. *)
Record method := Method {
  __name__ : string;
  parameters : list parameter;
  returns : string;
  action : list string -> M unit
}.

(** [_count_required_params] (lines 294-299): every parameter of the
    signature whose default is empty, of whatever kind. *)
Definition _count_required_params (cmd_method : method) : nat :=
  length (filter (fun cur_param => param_default cur_param = None)
                 (parameters cmd_method)).

(** [_count_params] (lines 322-323) *)
Definition _count_params (cmd_method : method) : nat :=
  length (parameters cmd_method).

Definition is_positional (p : parameter) : bool :=
  match param_kind p with
  | POSITIONAL_ONLY | POSITIONAL_OR_KEYWORD => true
  | _ => false
  end.

Definition is_var_positional (p : parameter) : bool :=
  match param_kind p with
  | VAR_POSITIONAL => true
  | _ => false
  end.

Definition is_keyword_only (p : parameter) : bool :=
  match param_kind p with
  | KEYWORD_ONLY => true
  | _ => false
  end.

Definition has_default (p : parameter) : bool :=
  match param_default p with
  | Some _ => true
  | None => false
  end.

(** How Python binds [n] positional arguments and no keyword argument to
    a signature: the arguments fill the positional parameters from the
    left, arguments beyond them go to the [*args] parameter when there is
    one and are refused otherwise, and every positional or keyword-only
    parameter left without an argument needs a default.  A [**kwargs]
    parameter takes nothing from such a call. *)
Definition binds_positional (func : method) (n : nat) : bool :=
  let positional := List.filter is_positional (parameters func) in
  ((n <=? length positional)%nat || existsb is_var_positional (parameters func))
  && forallb has_default (drop n positional)
  && forallb has_default (List.filter is_keyword_only (parameters func)).

(** The call [func( *args)] (lines 115 and 138): Python raises [TypeError]
    when the arguments cannot be bound to the signature; otherwise the
    body runs. *)
Definition call (func : method) (args : list string) : M unit :=
  if binds_positional func (length args)
  then fun w => action func args (emit (Invoke (__name__ func) args) w)
  else raise TypeError.

(** The result of the tokenizer ([pyparsing.ParseResults]). *)
Record ParseResults := mkParseResults {
  command : string;
  params : list string
}.

(** [pyparsing.ParseException]: the text and the column of the failure. *)
Record ParseException := mkParseException {
  pstr : string;
  col : nat
}.

(** [_find_command] (lines 344-378).  [all_methods] is the list the two
    [inspect.getmembers] calls give: pairs of an attribute name and the
    member, in enumeration order. *)
Definition find_do (all_methods : list (string * method)) (command_name : string)
  : option (string * method) :=
  List.find (fun cur_method => String.eqb cur_method.1 ("do_" +:+ command_name))
            all_methods.

Definition find_alias (all_methods : list (string * method)) (command_name : string)
  : option (string * method) :=
  List.find (fun cur_method =>
               String.prefix "alias_" cur_method.1
               && String.eqb (returns cur_method.2) command_name)
            all_methods.

Fixpoint _find_command (depth : nat) (all_methods : list (string * method))
    (command_name : string) : result (option method) :=
  match depth with
  | 0 => Raise RecursionError
  | S depth' =>
      match find_do all_methods command_name with
      | Some cur_method => Ok (Some cur_method.2)
      | None =>
          match find_alias all_methods command_name with
          | Some cur_method =>
              let orig_cmd_name := str_drop (String.length "alias_") cur_method.1 in
              _find_command depth' all_methods orig_cmd_name
          | None => Ok None
          end
      end
  end.

(** ** Exit and close *)

(** [do_exit] (lines 380-387) *)
Fixpoint do_exit (depth : nat) (self : loc) : M unit :=
  match depth with
  | 0 => raise RecursionError
  | S depth' =>
      debug "Terminating interpreter..." [] >>>
      fun w =>
        let w := set_done self w in
        match _parent (sh w self) with
        | Some parent => do_exit depth' parent w
        | None => (Ok tt, w)
        end
  end.

(** [do_close] (lines 389-398) *)
Definition do_close (self : loc) : M unit :=
  (fun w => debug "Closing shell %s (%s)"
                  [VStr "BaseShell"; VStr (prompt (sh w self))] w) >>>
  fun w => (Ok tt, set_done self w).

(** ** Input sources *)

(** [stream.readline()] on a file-like object: the next line, the empty
    string when the stream is exhausted. *)
Definition readline (stream : nat) : M string := fun w =>
  let advance rest :=
    {| shells := shells w; streams := <[stream := rest]> (streams w);
       stdin := stdin w; trace := trace w |} in
  match default [] (streams w !! stream) with
  | [] => (Ok "", w)
  | Returns line :: rest => (Ok line, advance rest)
  | Raises e :: rest => (Raise e, advance rest)
  end.

(** [input(prompt)]: shows the prompt and reads a line from the console;
    a closed console raises [EOFError]. *)
Definition input (text : string) : M string := fun w =>
  let w := emit (Prompt text) w in
  let advance rest :=
    {| shells := shells w; streams := streams w;
       stdin := rest; trace := trace w |} in
  match stdin w with
  | [] => (Raise EOFError, w)
  | Returns line :: rest => (Ok line, advance rest)
  | Raises e :: rest => (Raise e, advance rest)
  end.

(** ** The session loop *)

Section Engine.

(** [self._parser.parseString(line, parseAll=True)]: the tokenizer of
    [friendlyshell.command_parsers], a collaborator of the engine. *)
Variable parseString : string -> ParseResults + ParseException.

(** [os.path.expandvars], reading the process environment. *)
Variable expandvars : string -> string.

(** The [try] block of [_get_input] (lines 70-77) *)
Definition _get_input_try (self : loc) : M string := fun w =>
  match _input_stream (sh w self) with
  | Some stream =>
      (let* line := readline stream in
       if String.eqb line "" then raise EOFError
       else info (prompt (sh w self) +:+ line) [] >>> ret line) w
  | None => input (prompt (sh w self)) w
  end.

(** [_get_input] (lines 63-105) *)
Definition _get_input (depth : nat) (self : loc) : M (option string) := fun w =>
  match _get_input_try self w with
  | (Ok line, w') => (Ok (Some line), w')
  | (Raise err, w') =>
      match err with
      | KeyboardInterrupt => (Ok None, set_done self w')
      | EOFError => (do_exit depth self >>> ret None) w'
      | _ =>
          if isinstance_Exception err then
            (error "Unexpected error during input sequence: %s" [VExn err] >>>
             debug "%s" [VExn err] >>>
             fun w => (Ok None, set_done self w)) w'
          else (Raise err, w')
      end
  end.

(** [_parse_line] (lines 325-342) *)
Definition _parse_line (line : string) : M (option ParseResults) :=
  debug "Parsing command input %s..." [VStr line] >>>
  fun w =>
    let w := emit (Tokenize line) w in
    match parseString line with
    | inl retval =>
        (debug "Parsed command line is %s" [] >>> ret (Some retval)) w
    | inr err =>
        (error "Parsing error:" [] >>>
         error (String TAB "%s") [VStr (pstr err)] >>>
         error (String TAB "%s^") [VStr (str_repeat " " (col err - 1))] >>>
         debug "Details: %s" [] >>>
         ret None) w
    end.

(** [_check_params] (lines 239-270) *)
Definition _check_params (func : method) (parser : ParseResults) : M bool :=
  let num_tokens := length (params parser) in
  let num_required_params := _count_required_params func in
  let total_num_params := _count_params func in
  if (total_num_params =? 0)%nat && negb (num_tokens =? 0)%nat then
    error "Command %s accepts no parameters but %s provided."
          [VStr (replace_do_ (__name__ func)); VInt (Z.of_nat num_tokens)] >>>
    ret false
  else if (num_tokens <? num_required_params)%nat then
    error "Command %s requires %s parameters but %s provided."
          [VStr (replace_do_ (__name__ func));
           VInt (Z.of_nat num_required_params); VInt (Z.of_nat num_tokens)] >>>
    ret false
  else ret true.

(** The arguments [_execute_command] passes for a non-empty parameter
    list (lines 118-136). *)
Definition params_to_pass (func : method) (parser : ParseResults) : list string :=
  let params_to_pass := params parser in
  let num_params_total := _count_params func in
  if (num_params_total <? length params_to_pass)%nat then
    let num_params_to_compress :=
      (Z.of_nat (length params_to_pass) - Z.of_nat num_params_total + 1)%Z in
    let compressed :=
      join " " (slice_from params_to_pass (- num_params_to_compress)) in
    slice_to params_to_pass (- num_params_to_compress) ++ [compressed]
  else params_to_pass.

(** The [except] clauses of [_execute_command] (lines 139-152), applied
    to the outcome of its [try] block. *)
Definition _execute_command_except (outcome : result unit * World)
  : result unit * World :=
  match outcome with
  | (Ok _, w') => (Ok tt, w')
  | (Raise err, w') =>
      if isinstance_Exception err then
        (error "Unknown error detected: %s" [VExn err] >>>
         debug "%s" [VExn err]) w'
      else
        match err with
        | KeyboardInterrupt =>
            (debug "User interrupted operation..." [] >>> info "" []) w'
        | _ => (Raise err, w')
        end
  end.

(** [_execute_command] (lines 107-152) *)
Definition _execute_command (func : method) (parser : ParseResults) : M unit := fun w =>
  let try_block : M unit :=
    match params parser with
    | [] => call func []
    | _ :: _ => call func (params_to_pass func parser)
    end in
  _execute_command_except (try_block w).

(** The part of the loop body after resolution (lines 234-237). *)
Definition check_and_execute (func : method) (parser : ParseResults) : M unit :=
  let* ok := _check_params func parser in
  if ok then _execute_command func parser else ret tt.

(** The part of the loop body that handles a line to be run
    (lines 225-237). *)
Definition dispatch_line (depth : nat) (all_methods : list (string * method))
    (line : string) : M unit :=
  let* parser := _parse_line line in
  match parser with
  | None => ret tt
  | Some parser =>
      match _find_command depth all_methods (command parser) with
      | Raise e => raise e
      | Ok None => error "Command not found: %s" [VStr (command parser)]
      | Ok (Some func) => check_and_execute func parser
      end
  end.

(** One pass through the body of the [while] loop of [run]
    (lines 213-237); each [continue] ends the pass. *)
Definition run_iteration (depth : nat) (all_methods : list (string * method))
    (self : loc) : M unit :=
  let* line := _get_input depth self in
  match line with
  | None => ret tt
  | Some line =>
      if String.eqb line "" then ret tt
      else fun w =>
        if String.prefix (comment_delimiter (sh w self)) line then
          debug "Skipping comment line %s" [VStr line] w
        else dispatch_line depth all_methods (expandvars line) w
  end.

(** The statements of [run] before the loop (lines 205-210). *)
Definition run_setup (self : loc) (input_stream : option nat)
    (parent : option loc) : M unit := fun w =>
  let s := sh w self in
  let w := set_shell self
             {| prompt := prompt s; banner_text := banner_text s;
                _done := _done s; _input_stream := input_stream;
                _parent := parent;
                comment_delimiter := comment_delimiter s |} w in
  match banner_text (sh w self) with
  | Some text => if String.eqb text "" then (Ok tt, w) else info text [] w
  | None => (Ok tt, w)
  end.

(** [while not self._done] (line 212).  [steps] bounds the number of
    passes; [None] means the loop is still running after that many. *)
Fixpoint run_loop (steps depth : nat) (all_methods : list (string * method))
    (self : loc) (w : World) : option (result unit * World) :=
  if _done (sh w self) then Some (Ok tt, w)
  else
    match steps with
    | 0 => None
    | S steps' =>
        match run_iteration depth all_methods self w with
        | (Ok _, w') => run_loop steps' depth all_methods self w'
        | (Raise e, w') => Some (Raise e, w')
        end
    end.

(** [run] (lines 188-237) *)
Definition run (steps depth : nat) (all_methods : list (string * method))
    (self : loc) (input_stream : option nat) (parent : option loc)
    (w : World) : option (result unit * World) :=
  match run_setup self input_stream parent w with
  | (Ok _, w') => run_loop steps depth all_methods self w'
  | (Raise e, w') => Some (Raise e, w')
  end.

(** [run_subshell] (lines 182-186); [sub_methods] are the members of the
    sub-shell. *)
Definition run_subshell (steps depth : nat)
    (sub_methods : list (string * method)) (self subshell : loc)
    (w : World) : option (result unit * World) :=
  run steps depth sub_methods subshell (_input_stream (sh w self)) (Some self) w.

End Engine.

(** ** The line-editing backend and the history scopes *)

(** The state of the [readline] module: the in-memory history, the
    installed completion callback (a callable, known by its identity), the
    key bindings, and the files of the host.  A history file is text, one
    entry to a line: it is kept as the list of its lines, each of them
    ended by a line break in the file (the library reads nothing of what
    follows the last line break). *)
Record backend := mkBackend {
  history : list string;
  completer : option nat;
  bindings : list string;
  files : gmap string (list string)
}.

Definition RL (A : Type) : Type := backend -> result A * backend.

(** [readline.set_history_length(1000)] (line 17): a history file keeps
    the last 1000 lines written to it. *)
Definition history_length : nat := 1000.

Definition truncate_history (l : list string) : list string :=
  drop (length l - history_length) l.

Definition with_history (h : list string) (b : backend) : backend :=
  {| history := h; completer := completer b; bindings := bindings b;
     files := files b |}.

Definition with_files (f : gmap string (list string)) (b : backend) : backend :=
  {| history := history b; completer := completer b; bindings := bindings b;
     files := f |}.

Definition get_current_history_length (b : backend) : nat := length (history b).

Definition clear_history (b : backend) : backend := with_history [] b.

(** [s.split("\n")]: the lines an entry takes in a file. *)
Fixpoint split_lines (s : string) : list string :=
  match s with
  | EmptyString => [""]
  | String c s' =>
      if Ascii.eqb c LF then "" :: split_lines s'
      else
        match split_lines s' with
        | line :: lines => String c line :: lines
        | [] => [String c ""]
        end
  end.

(** A line without the carriage return that ends it, if one does. *)
Fixpoint strip_cr (line : string) : string :=
  match line with
  | EmptyString => ""
  | String c EmptyString => if Ascii.eqb c CR then "" else line
  | String c line' => String c (strip_cr line')
  end.

(** Writing puts every entry of the buffer on the file, each followed by
    a line break, and the file is then cut to its last [history_length]
    lines. *)
Definition write_history_file (filename : string) (b : backend) : backend :=
  with_files
    (<[filename := truncate_history (flat_map split_lines (history b))]> (files b)) b.

(** The entries a file gives: its lines, each without a closing carriage
    return, the empty ones left out. *)
Definition file_entries (lines : list string) : list string :=
  List.filter (fun line => negb (String.eqb line "")) (map strip_cr lines).

(** Reading appends the entries of the file to the buffer; a missing file
    raises. *)
Definition read_history_file (filename : string) : RL unit := fun b =>
  match files b !! filename with
  | Some lines => (Ok tt, with_history (history b ++ file_entries lines) b)
  | None => (Raise OSError, b)
  end.

Definition get_completer (b : backend) : option nat := completer b.

Definition set_completer (c : option nat) (b : backend) : backend :=
  {| history := history b; completer := c; bindings := bindings b;
     files := files b |}.

Definition parse_and_bind (line : string) (b : backend) : backend :=
  {| history := history b; completer := completer b;
     bindings := bindings b ++ [line]; files := files b |}.

(** [readline.add_history], what reading a line at the prompt does. *)
Definition add_history (line : string) (b : backend) : backend :=
  with_history (history b ++ [line]) b.

(** [os.path.exists] *)
Definition path_exists (path : string) (b : backend) : bool :=
  bool_decide (is_Some (files b !! path)).

(** [_autocomplete_helper] (lines 24-61).  [body] is the block of the
    [with] statement, run at the [yield].  [os.path.exists(None)] raises
    [TypeError]; the empty path is false in [if history_file]; the backend
    is one that has [read_history_file]. *)
Definition _autocomplete_helper (key : string) (callback : nat)
    (history_file : option string) (body : RL unit) : RL unit := fun b =>
  match history_file with
  | None => (Raise TypeError, b)
  | Some path =>
      let loaded :=
        if path_exists path b then read_history_file path b else (Ok tt, b) in
      match loaded with
      | (Raise e, b) => (Raise e, b)
      | (Ok _, b) =>
          let old_completer := get_completer b in
          let b := set_completer (Some callback) b in
          let b := parse_and_bind (key +:+ ": complete") b in
          (* try: yield *)
          let (outcome, b) := body b in
          (* finally: *)
          let b := set_completer old_completer b in
          let b := if String.eqb path "" then b else write_history_file path b in
          (outcome, b)
      end
  end.

(** [auto_complete_manager] (lines 64-113).  [enabled] is
    [AUTOCOMPLETE_ENABLED]; [temp_name] is the name
    [tempfile.NamedTemporaryFile] picks: the file is created empty and is
    removed when its [with] block is left, on every path. *)
Definition auto_complete_manager (enabled : bool) (temp_name : string)
    (key : string) (callback : nat) (history_file : option string)
    (body : RL unit) : RL unit := fun b =>
  if negb enabled then body b
  else if (get_current_history_length b =? 0)%nat then
    _autocomplete_helper key callback history_file body b
  else
    let unlink b := with_files (delete temp_name (files b)) b in
    let b := with_files (<[temp_name := []]> (files b)) b in
    let b := write_history_file temp_name b in
    let b := clear_history b in
    match _autocomplete_helper key callback history_file body b with
    | (Raise e, b) => (Raise e, unlink b)
    | (Ok _, b) =>
        let b := clear_history b in
        let (outcome, b) := read_history_file temp_name b in
        (outcome, unlink b)
    end.

(** ** A tokenizer for examples *)

(** Blanks that separate tokens. *)
Definition is_space (c : ascii) : bool :=
  (Ascii.eqb c " " || Ascii.eqb c "009" || Ascii.eqb c "010" || Ascii.eqb c "013")%char.

Definition close_token (cur : option string) : list string :=
  match cur with
  | Some t => [t]
  | None => []
  end.

(** Modelled from the spec: the tokenizer
    ([friendlyshell.command_parsers.default_line_parser]) is not part of
    the two source files.  Section 4.1 asks for a command token, zero or
    more whitespace-delimited parameter tokens, quoted tokens that may hold
    whitespace, and failure of the whole line when it cannot be matched.
    [tokens cur quoted s] scans [s]; [cur] is the token being read
    ([None] between tokens) and [quoted] tells whether a quote is open; an
    unclosed quote fails. *)
Fixpoint tokens (cur : option string) (quoted : bool) (s : string)
  : option (list string) :=
  match s with
  | EmptyString => if quoted then None else Some (close_token cur)
  | String c s' =>
      if quoted then
        if Ascii.eqb c "034"%char then tokens cur false s'
        else tokens (Some (default "" cur +:+ String c "")) true s'
      else if Ascii.eqb c "034"%char then tokens (Some (default "" cur)) true s'
      else if is_space c then
        option_map (app (close_token cur)) (tokens None false s')
      else tokens (Some (default "" cur +:+ String c "")) false s'
  end.

(** Modelled from the spec: the contract [parse] of section 4.1, missing
    from the source files like [tokens]: the first token is the command,
    the others are the parameters, and a line without a token fails as a
    whole. *)
Definition spec_parser (line : string) : ParseResults + ParseException :=
  match tokens None false line with
  | Some (cmd :: rest) => inl {| command := cmd; params := rest |}
  | _ => inr {| pstr := line; col := 1 |}
  end.


(** ** Notions used to state the properties *)

(** [ancestors w self l]: [l] lists the sessions reached from [self]
    through the parent back-pointers, nearest first, down to a session
    that has no parent. *)
Fixpoint ancestors (w : World) (self : loc) (l : list loc) : Prop :=
  match l with
  | [] => _parent (sh w self) = None
  | parent :: l' => _parent (sh w self) = Some parent /\ ancestors w parent l'
  end.


(** A session created by [__init__] and then run under [parent]. *)
Definition child_of (parent : loc) : shell :=
  {| prompt := "> "; banner_text := None; _done := false;
     _input_stream := None; _parent := Some parent; comment_delimiter := "#" |}.

(** Three nested sessions: 0 is the outermost, 2 the innermost. *)
Definition nested_world : World :=
  {| shells := <[2 := child_of 1]> (<[1 := child_of 0]> ∅);
     streams := ∅; stdin := []; trace := [] |}.


(** The alias providers among the members of a shell, and the command
    name an alias provider stands for (line 373). *)
Definition alias_providers (all_methods : list (string * method))
  : list (string * method) :=
  List.filter (fun cur_method => String.prefix "alias_" cur_method.1) all_methods.

Definition alias_target (name : string) : string :=
  str_drop (String.length "alias_") name.

(** The first [n] command names [_find_command] is called on, starting
    from [command_name]: it moves on to the target of the first alias
    provider that reports the name when no handler carries it. *)
Fixpoint alias_walk (n : nat) (all_methods : list (string * method))
    (command_name : string) : list string :=
  match n with
  | 0 => []
  | S n' =>
      command_name ::
      match find_do all_methods command_name,
            find_alias all_methods command_name with
      | None, Some cur_method => alias_walk n' all_methods (alias_target cur_method.1)
      | _, _ => []
      end
  end.

(** A member that does nothing when called. *)
Definition plain_method (name : string) (ps : list parameter) (reported : string)
  : method :=
  {| __name__ := name; parameters := ps; returns := reported;
     action := fun _ => ret tt |}.

(** An alias provider that reports the name it stands for, and no handler
    of that name. *)
Definition looping_shell : list (string * method) :=
  [("alias_x", plain_method "alias_x" [] "x")].

(** An alias provider whose target has no handler. *)
Definition dangling_shell : list (string * method) :=
  [("alias_foo", plain_method "alias_foo" [] "f")].

(** [alias_foo] reports [f] while a handler [do_f] exists. *)
Definition shadow_shell : list (string * method) :=
  [("do_f", plain_method "do_f" [] "");
   ("do_foo", plain_method "do_foo" [] "");
   ("alias_foo", plain_method "alias_foo" [] "f")].


(** The commands every shell has ([do_exit], [do_close],
    [do_native_shell] and its alias, in enumeration order: bound methods by
    name, then static functions).  The operating-system command that
    [do_native_shell] runs is outside the model. *)
Definition builtin_methods (depth : nat) (self : loc) : list (string * method) :=
  [("do_close",
    {| __name__ := "do_close"; parameters := []; returns := "";
       action := fun _ => do_close self |});
   ("do_exit",
    {| __name__ := "do_exit"; parameters := []; returns := "";
       action := fun _ => do_exit depth self |});
   ("do_native_shell",
    plain_method "do_native_shell"
      [ {| param_name := "cmd"; param_kind := POSITIONAL_OR_KEYWORD;
         param_default := None |} ] "");
   ("alias_native_shell", plain_method "alias_native_shell" [] "!")].


(** The block of a history scope in which the user enters the lines
    [entries] and which then completes. *)
Definition enter_lines (entries : list string) : RL unit := fun b =>
  (Ok tt, foldl (fun b line => add_history line b) b entries).

(** The block of a history scope in which the user enters [entries] and
    which then fails with [e]. *)
Definition enter_lines_then_fail (entries : list string) (e : exn) : RL unit :=
  fun b => (Raise e, foldl (fun b line => add_history line b) b entries).

(** A parent shell holding the history [a, b], completion callback 1. *)
Definition parent_backend : backend :=
  {| history := ["a"; "b"]; completer := Some 1; bindings := []; files := ∅ |}.


(** What the next read from the input source of [self] gives: a stream
    that is used up returns the empty string, a closed console raises
    [EOFError]. *)
Definition next_read (w : World) (self : loc) : read_event :=
  match _input_stream (sh w self) with
  | Some stream =>
      match default [] (streams w !! stream) with
      | [] => Returns ""
      | ev :: _ => ev
      end
  | None =>
      match stdin w with
      | [] => Raises EOFError
      | ev :: _ => ev
      end
  end.

(** No done flag that is true in [w] is false in [w']. *)
Definition done_monotone (w w' : World) : Prop :=
  forall l, _done (sh w l) = true -> _done (sh w' l) = true.

(** A computation that never resets a done flag. *)
Definition keeps_done {A} (m : M A) : Prop :=
  forall w, done_monotone w (m w).2.

(** A console session at location 0, fresh from [__init__], with the
    given reads ahead of it. *)
Definition console_world (reads : list read_event) : World :=
  {| shells := ∅; streams := ∅; stdin := reads; trace := [] |}.


(** A shell with one more command, whose handler always fails. *)
Definition failing_shell : list (string * method) :=
  [("do_fail",
    {| __name__ := "do_fail"; parameters := []; returns := "";
       action := fun _ => raise (OtherError "boom") |})].


(** Two records of attributes that differ at most in the done flag. *)
Definition same_but_done (s s' : shell) : Prop :=
  prompt s' = prompt s /\ banner_text s' = banner_text s
  /\ _input_stream s' = _input_stream s /\ _parent s' = _parent s
  /\ comment_delimiter s' = comment_delimiter s.


(** The reads still ahead in a stream. *)
Definition pending (w : World) (stream : nat) : list read_event :=
  default [] (streams w !! stream).

(** A computation that leaves the streams alone, and the stream that
    [self] reads from. *)
Definition keeps_input {A} (self : loc) (m : M A) : Prop :=
  forall w,
    streams (m w).2 = streams w
    /\ _input_stream (sh (m w).2 self) = _input_stream (sh w self).


(** A session at location 1 that reads the given stream (stream 0), run
    under the session at location 0. *)
Definition script_world (reads : list read_event) : World :=
  {| shells := <[1 := {| prompt := "> "; banner_text := None; _done := false;
                         _input_stream := Some 0; _parent := Some 0;
                         comment_delimiter := "#" |}]> ∅;
     streams := <[0 := reads]> ∅; stdin := []; trace := [] |}.



(** ** Command completion ([CommandCompleteMixin]) *)

(** What [readline] tells about the line being edited:
    [get_line_buffer()] and [get_begidx()], the offset at which the token
    to complete starts. *)
Record line_view := mkLineView {
  line_buffer : string;
  begidx : nat
}.

(** The value a completion method of the host returns: a list of
    candidates, or something that is no list. *)
Inductive completion_value :=
| Matches (l : list string)
| NotAList.

(** A completion method [complete_<cmd>(params, index, token_length)]. *)
Definition completion_method : Type :=
  list string -> nat -> nat -> result completion_value.

(** An attribute of the shell as [_get_completion_callback] sees it: a
    bound method, or anything else (a static function, a plain value). *)
Inductive attribute :=
| BoundMethod (f : completion_method)
| OtherAttribute.

(** [s[n:]] applied to an attribute name ([cur_method[0][3:]]). *)
Definition command_of (name : string) : string := str_drop 3 name.

(** [_complete_command_names] (lines 125-134).  [methods] is what
    [inspect.getmembers(self, inspect.ismethod)] gives: the bound methods,
    without the static functions. *)
Definition _complete_command_names (methods : list (string * method))
    (partial_cmd : string) : list string :=
  map (fun cur_method => command_of cur_method.1)
      (List.filter (fun cur_method => String.prefix ("do_" +:+ partial_cmd) cur_method.1)
                   methods).

(** [_get_completion_callback] (lines 136-156) *)
Definition _get_completion_callback (attributes : gmap string attribute)
    (cmd : string) : option completion_method :=
  let method_name := "complete_" +:+ cmd in
  match attributes !! method_name with
  | None => None
  | Some (BoundMethod tmp_method) => Some tmp_method
  | Some OtherAttribute => None
  end.

(** [original_line.find(param, len(parser.command)) == get_begidx()] *)
Definition found_at_begidx (view : line_view) (parser : ParseResults)
    (param : string) : bool :=
  bool_decide (String.index (String.length (command parser)) param (line_buffer view)
               = Some (begidx view)).

(** The [for] loop of [_get_callback_param_index] (lines 162-176): the
    first index whose parameter is found at the start of the token. *)
Fixpoint first_param_at_begidx (view : line_view) (parser : ParseResults)
    (i : nat) (ps : list string) : option nat :=
  match ps with
  | [] => None
  | param :: ps' =>
      if found_at_begidx view parser param then Some i
      else first_param_at_begidx view parser (S i) ps'
  end.

(** [_get_callback_param_index] (lines 158-194) *)
Definition _get_callback_param_index (view : line_view) (parser : ParseResults)
    (token : string) : option nat :=
  match first_param_at_begidx view parser 0 (params parser) with
  | None => None
  | Some param_index =>
      match params parser !! param_index with
      | Some param =>
          if String.prefix token param then Some param_index else None
      | None => None
      end
  end.

(** [_get_completions] (lines 196-214) *)
Definition _get_completions (tmp_method : completion_method)
    (parser : ParseResults) (param_index : nat) (token : string)
  : result (option (list string)) :=
  match tmp_method (params parser) param_index (String.length token) with
  | Raise e => Raise e
  | Ok (Matches retval) => Ok (Some retval)
  | Ok NotAList => Ok None
  end.

(** [do_clear_history] (lines 363-372), on the output of the shell and the
    backend. *)
Definition do_clear_history (enabled : bool) (wb : World * backend)
  : World * backend :=
  if negb enabled
  then ((info "Command completion disabled." [] wb.1).2, wb.2)
  else (wb.1, clear_history wb.2).

Section Completion.

Variable parseString : string -> ParseResults + ParseException.

(** [_get_completion_matches] (lines 216-263).  A line that does not
    parse makes [parser] be [None], and reading [parser.command] raises
    [AttributeError]. *)
Definition _get_completion_matches (methods : list (string * method))
    (attributes : gmap string attribute) (view : line_view) (token : string)
  : M (option (list string)) :=
  let original_line := line_buffer view in
  if (begidx view =? 0)%nat then ret (Some (_complete_command_names methods token))
  else
    let* parser := _parse_line parseString original_line in
    match parser with
    | None => raise (OtherError "AttributeError")
    | Some parser =>
        match _get_completion_callback attributes (command parser) with
        | None => ret None
        | Some tmp_method =>
            match _get_callback_param_index view parser token with
            | None => ret None
            | Some param_index =>
                fun w => (_get_completions tmp_method parser param_index token, w)
            end
        end
    end.

(** The [try] block of [_complete_callback] (lines 293-353).
    [latest_matches] is the attribute [_latest_matches]; the block returns
    its result together with the new value of the attribute.  Indexing an
    empty line raises [IndexError], [len(None)] raises [TypeError]. *)
Definition _complete_callback_try (methods : list (string * method))
    (attributes : gmap string attribute) (view : line_view)
    (token : string) (index : nat) (latest_matches : option (list string))
  : M (option string * option (list string)) :=
  match line_buffer view with
  | EmptyString => raise (OtherError "IndexError")
  | String _ _ =>
      if negb (index =? 0)%nat then
        match latest_matches with
        | None => raise TypeError
        | Some matches =>
            if (length matches <=? index)%nat then ret (None, latest_matches)
            else ret (matches !! index, latest_matches)
        end
      else
        let* found := _get_completion_matches methods attributes view token in
        match found with
        | None => ret (None, None)
        | Some [] => ret (None, Some [])
        | Some (first :: others) => ret (Some first, Some (first :: others))
        end
  end.

(** [_complete_callback] (lines 265-361): an error in the block is logged
    at debug level and gives no candidate; the attribute is then as it was
    before the call. *)
Definition _complete_callback (methods : list (string * method))
    (attributes : gmap string attribute) (view : line_view)
    (token : string) (index : nat) (latest_matches : option (list string))
  : M (option string * option (list string)) := fun w =>
  match _complete_callback_try methods attributes view token index latest_matches w with
  | (Ok r, w') => (Ok r, w')
  | (Raise err, w') =>
      if isinstance_Exception err then (Ok (None, latest_matches), w')
      else (Raise err, w')
  end.

End Completion.


(** A shell whose command [quit] leaves the interpreter ([sys.exit]) and
    whose command [wait] is interrupted by the user. *)
Definition leaving_shell : list (string * method) :=
  [("do_quit",
    {| __name__ := "do_quit"; parameters := []; returns := "";
       action := fun _ => raise SystemExit |});
   ("do_wait",
    {| __name__ := "do_wait"; parameters := []; returns := "";
       action := fun _ => raise KeyboardInterrupt |})].





(** [def do_deploy(self, region, notes="")], the example of the design
    document. *)
Definition do_deploy : method :=
  {| __name__ := "do_deploy";
     parameters := [ {| param_name := "region"; param_kind := POSITIONAL_OR_KEYWORD;
                        param_default := None |};
                     {| param_name := "notes"; param_kind := POSITIONAL_OR_KEYWORD;
                        param_default := Some "" |} ];
     returns := ""; action := fun _ => ret tt |}.







(** What printing the banner of a session does to [run]
    ([self.info(self.banner_text)], line 210): nothing when there is no
    banner, and otherwise what the [%] operator does on the text. *)
Definition banner_outcome (s : shell) : result unit :=
  match banner_text s with
  | Some text => percent text []
  | None => Ok tt
  end.


(** The exceptions of the [%] operator. *)
Definition format_error (e : exn) : Prop :=
  e = TypeError \/ e = OtherError "ValueError" \/ e = OtherError "OverflowError".


(** A session at location 0 that is done and whose banner holds a
    percent sign. *)
Definition banner_world : World :=
  {| shells := <[0 := {| prompt := "> "; banner_text := Some "100% ready";
                         _done := true; _input_stream := None; _parent := None;
                         comment_delimiter := "#" |}]> ∅;
     streams := ∅; stdin := [Returns "exit"]; trace := [] |}.


(** * Properties *)

(** ** Python slices *)

Lemma py_index_from_end {A} (l : list A) (n : nat) :
  0 < n -> py_index l (- Z.of_nat n) = length l - n.
Proof.
  intros Hn. unfold py_index.
  destruct (Z.ltb_spec (- Z.of_nat n) 0) as [_|Hge]; [|lia].
  lia.
Qed.

Lemma slice_from_end {A} (l : list A) (n : nat) :
  0 < n -> slice_from l (- Z.of_nat n) = drop (length l - n) l.
Proof. intros Hn. unfold slice_from. by rewrite py_index_from_end. Qed.

Lemma slice_to_end {A} (l : list A) (n : nat) :
  0 < n -> slice_to l (- Z.of_nat n) = take (length l - n) l.
Proof. intros Hn. unfold slice_to. by rewrite py_index_from_end. Qed.

(** ** The argument binder *)


Lemma params_to_pass_through (func : method) (parser : ParseResults) :
  length (params parser) <= _count_params func ->
  params_to_pass func parser = params parser.
Proof.
  intros Hk. unfold params_to_pass.
  destruct (Nat.ltb_spec (_count_params func) (length (params parser))); [lia|done].
Qed.

Lemma params_to_pass_compress (func : method) (parser : ParseResults) :
  _count_params func < length (params parser) ->
  params_to_pass func parser =
    take (_count_params func - 1) (params parser)
    ++ [join " " (drop (_count_params func - 1) (params parser))].
Proof.
  intros Hk. unfold params_to_pass.
  destruct (Nat.ltb_spec (_count_params func) (length (params parser))); [|lia].
  set (T := _count_params func) in *. set (l := params parser) in *.
  replace (Z.of_nat (length l) - Z.of_nat T + 1)%Z
    with (Z.of_nat (length l - T + 1)) by lia.
  rewrite slice_from_end, slice_to_end by lia.
  by replace (length l - (length l - T + 1)) with (T - 1) by lia.
Qed.






Lemma length_filter_positional (ps : list parameter) :
  length (List.filter is_positional ps) <= length ps.
Proof.
  induction ps as [|p ps IH]; [done|]. simpl.
  destruct (is_positional p); simpl; lia.
Qed.



Lemma check_params_accepts (func : method) (parser : ParseResults) (w : World) :
  _count_required_params func <= length (params parser) ->
  (_count_params func = 0 -> length (params parser) = 0) ->
  _check_params func parser w = (Ok true, w).
Proof.
  intros HR H0. unfold _check_params.
  destruct (Nat.eqb_spec (_count_params func) 0) as [HT|HT]; simpl.
  - rewrite (H0 HT). simpl.
    destruct (Nat.ltb_spec 0 (_count_required_params func)); [|done].
    rewrite (H0 HT) in HR. lia.
  - destruct (Nat.ltb_spec (length (params parser)) (_count_required_params func));
      [lia|done].
Qed.

Lemma execute_command_calls (func : method) (parser : ParseResults) (w : World) :
  _execute_command func parser w =
    _execute_command_except (call func (params_to_pass func parser) w).
Proof.
  unfold _execute_command. destruct (params parser) as [|p ps] eqn:Hp; [|done].
  unfold params_to_pass. rewrite Hp. simpl.
  by destruct (_count_params func <? 0)%nat eqn:E; [apply Nat.ltb_lt in E; lia|].
Qed.


(** The example of the design document: [deploy(region, notes)] called
    with four tokens. *)
Example deploy_tokens :
  params_to_pass do_deploy
    {| command := "deploy"; params := ["--region"; "us-east"; "extra"; "words"] |}
  = ["--region"; "us-east extra words"].
Proof. reflexivity. Qed.



(** ** Attribute access *)

Lemma sh_set_shell_eq (w : World) (self : loc) (s : shell) :
  sh (set_shell self s w) self = s.
Proof. unfold sh, set_shell. simpl. by rewrite lookup_insert_eq. Qed.

Lemma sh_set_shell_ne (w : World) (self l : loc) (s : shell) :
  self <> l -> sh (set_shell self s w) l = sh w l.
Proof. intros Hne. unfold sh, set_shell. simpl. by rewrite lookup_insert_ne. Qed.

Lemma sh_emit (w : World) (e : event) (l : loc) : sh (emit e w) l = sh w l.
Proof. done. Qed.

Lemma done_set_done_eq (w : World) (self : loc) : _done (sh (set_done self w) self) = true.
Proof. unfold set_done. by rewrite sh_set_shell_eq. Qed.

Lemma sh_set_done_ne (w : World) (self l : loc) :
  self <> l -> sh (set_done self w) l = sh w l.
Proof. intros Hne. unfold set_done. by rewrite sh_set_shell_ne. Qed.

Lemma parent_set_done (w : World) (self l : loc) :
  _parent (sh (set_done self w) l) = _parent (sh w l).
Proof.
  destruct (decide (self = l)) as [->|Hne].
  - unfold set_done. by rewrite sh_set_shell_eq.
  - by rewrite sh_set_done_ne.
Qed.

Lemma done_set_done_mono (w : World) (self l : loc) :
  _done (sh w l) = true -> _done (sh (set_done self w) l) = true.
Proof.
  intros Hd. destruct (decide (self = l)) as [->|Hne].
  - apply done_set_done_eq.
  - by rewrite sh_set_done_ne.
Qed.

(** ** Exit and close *)

Lemma ancestors_set_done (w : World) (x self : loc) (l : list loc) :
  ancestors (set_done x w) self l <-> ancestors w self l.
Proof.
  revert self. induction l as [|p l IH]; intros self; simpl.
  - by rewrite parent_set_done.
  - rewrite parent_set_done. by rewrite IH.
Qed.

Lemma ancestors_unique (w : World) (self : loc) (l1 l2 : list loc) :
  ancestors w self l1 -> ancestors w self l2 -> l1 = l2.
Proof.
  revert self l2. induction l1 as [|p l1 IH]; intros self [|q l2]; simpl.
  - done.
  - intros H1 [H2 _]. congruence.
  - intros [H1 _] H2. congruence.
  - intros [H1 H1'] [H2 H2']. assert (p = q) as -> by congruence.
    f_equal. by eapply IH.
Qed.

Lemma ancestors_from (w : World) (self x : loc) (pre post : list loc) :
  ancestors w self (pre ++ x :: post) -> ancestors w x post.
Proof.
  revert self. induction pre as [|p pre IH]; intros self; simpl.
  - by intros [_ H].
  - intros [_ H]. by eapply IH.
Qed.

(** A session is not its own ancestor when its chain of parents ends. *)
Lemma ancestors_not_self (w : World) (self : loc) (l : list loc) :
  ancestors w self l -> self ∉ l.
Proof.
  intros Hanc Hin. apply list_elem_of_split in Hin as (pre & post & ->).
  pose proof (ancestors_from _ _ _ _ _ Hanc) as Hpost.
  pose proof (ancestors_unique _ _ _ _ Hanc Hpost) as Heq.
  apply (f_equal length) in Heq. rewrite length_app in Heq. simpl in Heq. lia.
Qed.

Lemma do_exit_chain (w : World) (self : loc) (l : list loc) (depth : nat) :
  ancestors w self l -> length l < depth ->
  exists w',
    do_exit depth self w = (Ok tt, w')
    /\ (forall x, x ∈ self :: l -> _done (sh w' x) = true)
    /\ (forall x, x ∉ self :: l -> sh w' x = sh w x)
    /\ (forall x, _done (sh w x) = true -> _done (sh w' x) = true).
Proof.
  revert w self depth. induction l as [|p l IH]; intros w self depth Hanc Hd;
    (destruct depth as [|depth]; [simpl in Hd; lia|]); simpl in Hanc.
  - exists (set_done self w). simpl. unfold bind, debug.
    rewrite parent_set_done, Hanc. split; [done|]. split; [|split].
    + intros x Hx. rewrite list_elem_of_singleton in Hx. subst x.
      apply done_set_done_eq.
    + intros x Hx. apply not_elem_of_cons in Hx as [Hxs _]. by apply sh_set_done_ne.
    + intros x. apply done_set_done_mono.
  - destruct Hanc as [Hp Hanc].
    destruct (IH (set_done self w) p depth) as (w' & Hrun & Hall & Hother & Hmono).
    { by apply ancestors_set_done. }
    { simpl in Hd. lia. }
    exists w'. simpl. unfold bind, debug.
    rewrite parent_set_done, Hp. split; [exact Hrun|]. split; [|split].
    + intros x Hx. apply elem_of_cons in Hx as [->|Hx]; [|by apply Hall].
      apply Hmono, done_set_done_eq.
    + intros x Hx. apply not_elem_of_cons in Hx as [Hxs Hx].
      rewrite Hother by done. by apply sh_set_done_ne.
    + intros x Hx. by apply Hmono, done_set_done_mono.
Qed.

(** C2.  Exit versus close.  For a session with [N] ancestors (the list
    [anc], reached through the parent back-pointers), [do_exit] returns and
    leaves the done flag true on the session and on each of its [N]
    ancestors, every other session being untouched; [do_close] leaves the
    done flag true on the session, every other session untouched, so the
    done flag of each ancestor is what it was. *)
Theorem exit_versus_close (w : World) (self : loc) (anc : list loc) (depth : nat) :
  ancestors w self anc -> length anc < depth ->
  (exists w',
      do_exit depth self w = (Ok tt, w')
      /\ (forall x, x ∈ self :: anc -> _done (sh w' x) = true)
      /\ (forall x, x ∉ self :: anc -> sh w' x = sh w x))
  /\ (exists w',
      do_close self w = (Ok tt, w')
      /\ _done (sh w' self) = true
      /\ (forall x, x <> self -> sh w' x = sh w x)
      /\ (forall a, a ∈ anc -> _done (sh w' a) = _done (sh w a))).
Proof.
  intros Hanc Hdepth. split.
  - destruct (do_exit_chain w self anc depth Hanc Hdepth) as (w' & Hrun & Hall & Hother & _).
    by exists w'.
  - exists (set_done self w). split; [done|]. split; [apply done_set_done_eq|].
    split.
    + intros x Hx. by apply sh_set_done_ne.
    + intros a Ha. rewrite sh_set_done_ne; [done|].
      intros ->. by apply (ancestors_not_self w a anc).
Qed.

Lemma exit_versus_close_witness :
  (exists w',
      do_exit 3 2 nested_world = (Ok tt, w')
      /\ (forall x, x ∈ [2; 1; 0] -> _done (sh w' x) = true)
      /\ (forall x, x ∉ [2; 1; 0] -> sh w' x = sh nested_world x))
  /\ (exists w',
      do_close 2 nested_world = (Ok tt, w')
      /\ _done (sh w' 2) = true
      /\ (forall x, x <> 2 -> sh w' x = sh nested_world x)
      /\ (forall a, a ∈ [1; 0] -> _done (sh w' a) = _done (sh nested_world a))).
Proof.
  apply (exit_versus_close nested_world 2 [1; 0] 3).
  - repeat split.
  - simpl. lia.
Defined.

(** ** Alias resolution *)

Lemma find_alias_provider (all_methods : list (string * method))
    (command_name : string) (cur_method : string * method) :
  find_alias all_methods command_name = Some cur_method ->
  cur_method ∈ alias_providers all_methods /\ returns cur_method.2 = command_name.
Proof.
  intros Hfind. apply find_some in Hfind as [Hin Htest].
  apply andb_true_iff in Htest as [Hprefix Hret].
  split.
  - apply list_elem_of_In, filter_In. by split.
  - by apply String.eqb_eq.
Qed.

Lemma find_command_mono (all_methods : list (string * method)) (d d' : nat)
    (command_name : string) (r : option method) :
  _find_command d all_methods command_name = Ok r -> d <= d' ->
  _find_command d' all_methods command_name = Ok r.
Proof.
  revert d' command_name. induction d as [|d IH]; intros d' name; [done|].
  destruct d' as [|d']; [lia|]. simpl.
  destruct (find_do all_methods name); [done|].
  destruct (find_alias all_methods name); [|done].
  intros H Hle. apply IH; [done|lia].
Qed.

(** When the recursion runs out of frames, the walk has visited as many
    names as there were frames, each reported by an alias provider. *)
Lemma find_command_raise (all_methods : list (string * method)) (depth : nat)
    (command_name : string) (e : exn) :
  _find_command depth all_methods command_name = Raise e ->
  e = RecursionError
  /\ length (alias_walk depth all_methods command_name) = depth
  /\ (forall x, x ∈ alias_walk depth all_methods command_name ->
       x ∈ (fun cur_method : string * method => returns cur_method.2)
           <$> alias_providers all_methods).
Proof.
  revert command_name. induction depth as [|depth IH]; intros name; simpl.
  - intros [= <-]. split; [done|]. split; [done|]. intros x Hx. by apply elem_of_nil in Hx.
  - destruct (find_do all_methods name); [done|].
    destruct (find_alias all_methods name) as [cur_method|] eqn:Halias; [|done].
    intros Hraise. destruct (IH _ Hraise) as (He & Hlen & Hsub).
    split; [done|]. split; [exact (f_equal S Hlen)|].
    intros x Hx. apply elem_of_cons in Hx as [->|Hx]; [|by apply Hsub].
    apply find_alias_provider in Halias as [Hin <-].
    apply list_elem_of_fmap. by exists cur_method.
Qed.

(** A name met on the walk resolves to the same result, no deeper. *)
Lemma find_command_along_walk (all_methods : list (string * method)) (d n : nat)
    (x y : string) (r : option method) :
  _find_command d all_methods x = Ok r ->
  y ∈ alias_walk n all_methods x ->
  exists d', d' <= d /\ _find_command d' all_methods y = Ok r.
Proof.
  revert x n. induction d as [|d IH]; intros x n Hrun Hin; [done|].
  destruct n as [|n]; [by apply elem_of_nil in Hin|].
  cbn [alias_walk] in Hin. apply elem_of_cons in Hin as [->|Hin].
  { exists (S d). by split. }
  cbn [_find_command] in Hrun.
  destruct (find_do all_methods x); [by apply elem_of_nil in Hin|].
  destruct (find_alias all_methods x) as [cur_method|];
    [|by apply elem_of_nil in Hin].
  destruct (IH _ _ Hrun Hin) as (d' & Hle & Hrun').
  exists d'. split; [lia|done].
Qed.

(** When resolution returns, the walk has met no name twice. *)
Lemma find_command_walk_nodup (all_methods : list (string * method)) (d : nat)
    (command_name : string) (r : option method) :
  _find_command d all_methods command_name = Ok r ->
  forall n, NoDup (alias_walk n all_methods command_name).
Proof.
  revert command_name r. induction d as [d IH] using lt_wf_ind.
  intros name r Hrun n. destruct d as [|d]; [done|].
  destruct n as [|n]; [constructor|].
  cbn [_find_command] in Hrun. cbn [alias_walk].
  destruct (find_do all_methods name) eqn:Hdo; [apply NoDup_singleton|].
  destruct (find_alias all_methods name) as [cur_method|] eqn:Halias;
    [|apply NoDup_singleton].
  apply NoDup_cons. split.
  - intros Hin.
    destruct (find_command_along_walk _ _ _ _ _ _ Hrun Hin) as (d' & Hle & Hrun').
    assert (Hd' : d' < S d) by lia.
    pose proof (IH d' Hd' name r Hrun' (S n)) as Hnodup.
    cbn [alias_walk] in Hnodup. rewrite Hdo, Halias in Hnodup.
    by apply NoDup_cons in Hnodup as [Hnot _].
  - apply (IH d (Nat.lt_succ_diag_r d) _ r Hrun).
Qed.

(** On a walk that meets a name twice, resolution never returns. *)
Lemma alias_cycle_never_returns (all_methods : list (string * method))
    (command_name : string) (n : nat) :
  ~ NoDup (alias_walk n all_methods command_name) ->
  forall depth, _find_command depth all_methods command_name = Raise RecursionError.
Proof.
  intros Hdup depth.
  destruct (_find_command depth all_methods command_name) as [r|e] eqn:Hrun.
  - destruct Hdup. by eapply find_command_walk_nodup.
  - by apply find_command_raise in Hrun as [-> _].
Qed.

(** C3, amended.  Alias resolution returns, a binding or not-found, within
    as many recursive steps as there are alias providers, whenever the walk
    along the aliases from the command name meets no name twice.  This
    covers alias providers whose target command does not exist. *)
Theorem alias_resolution_terminates (all_methods : list (string * method))
    (command_name : string) :
  (forall n, NoDup (alias_walk n all_methods command_name)) ->
  exists r,
    forall depth, length (alias_providers all_methods) < depth ->
      _find_command depth all_methods command_name = Ok r.
Proof.
  intros Hnodup.
  set (n := length (alias_providers all_methods)).
  destruct (_find_command (S n) all_methods command_name) as [r|e] eqn:Hrun.
  - exists r. intros depth Hdepth. eapply find_command_mono; [exact Hrun|lia].
  - exfalso. apply find_command_raise in Hrun as (_ & Hlen & Hsub).
    pose proof (NoDup_submseteq _ _ (Hnodup (S n)) Hsub) as Hle.
    apply submseteq_length in Hle. rewrite Hlen, length_fmap in Hle.
    fold n in Hle. lia.
Qed.

Lemma alias_resolution_terminates_witness :
  exists r,
    forall depth, length (alias_providers dangling_shell) < depth ->
      _find_command depth dangling_shell "f" = Ok r.
Proof.
  apply (alias_resolution_terminates dangling_shell "f").
  intros [|[|[|n]]]; apply (bool_decide_unpack _); reflexivity.
Defined.

(** A dangling alias resolves to not-found. *)
Example dangling_alias_not_found : _find_command 2 dangling_shell "f" = Ok None.
Proof. reflexivity. Qed.

(** On an alias cycle the recursion never returns. *)
Lemma looping_alias_recurses (depth : nat) :
  _find_command depth looping_shell "x" = Raise RecursionError.
Proof. induction depth as [|depth IH]; [done|]. simpl. exact IH. Qed.

(** C3, as stated, fails: the shell has one alias provider, and resolving
    the name it reports raises [RecursionError] whatever the number of
    frames, so it returns neither a binding nor not-found. *)
Lemma alias_cycle_counterexample :
  length (alias_providers looping_shell) = 1
  /\ (forall depth, _find_command depth looping_shell "x" = Raise RecursionError).
Proof. split; [reflexivity|apply looping_alias_recurses]. Qed.

Lemma find_none_of_all (A : Type) (f : A -> bool) (l : list A) :
  (forall x, x ∈ l -> f x = false) -> List.find f l = None.
Proof.
  induction l as [|y l IH]; intros Hall; [done|]. simpl.
  rewrite (Hall y) by apply list_elem_of_here.
  apply IH. intros x Hx. apply Hall. by apply list_elem_of_further.
Qed.

Lemma find_first_match (A : Type) (f : A -> bool) (pre post : list A) (y : A) :
  (forall x, x ∈ pre -> f x = false) -> f y = true ->
  List.find f (pre ++ y :: post) = Some y.
Proof.
  induction pre as [|z pre IH]; intros Hpre Hy; simpl.
  - by rewrite Hy.
  - rewrite (Hpre z) by apply list_elem_of_here.
    apply IH; [|done]. intros x Hx. apply Hpre. by apply list_elem_of_further.
Qed.

(** C8, amended.  For an alias provider that reports the shorthand [s] and
    stands for the command [t]: when no member of the shell is a handler
    named [s], and no alias provider enumerated before it reports [s],
    resolving [s] is resolving [t] one call deeper, so both return the same
    binding (or both not-found). *)
Theorem alias_resolves_as_target (all_methods pre post : list (string * method))
    (name : string) (provider : method) :
  all_methods = pre ++ (name, provider) :: post ->
  String.prefix "alias_" name = true ->
  (forall cur_method, cur_method ∈ all_methods ->
     cur_method.1 <> "do_" +:+ returns provider) ->
  (forall cur_method, cur_method ∈ pre ->
     String.prefix "alias_" cur_method.1 = true ->
     returns cur_method.2 <> returns provider) ->
  let s := returns provider in
  let t := alias_target name in
  (forall depth,
     _find_command (S depth) all_methods s = _find_command depth all_methods t)
  /\ (forall r,
       (exists depth, _find_command depth all_methods s = Ok r)
       <-> (exists depth, _find_command depth all_methods t = Ok r)).
Proof.
  intros Hsplit Hprefix Hnodo Hfirst s t.
  assert (Hstep : forall depth,
    _find_command (S depth) all_methods s = _find_command depth all_methods t).
  { assert (Hdo : find_do all_methods s = None).
    { apply find_none_of_all. intros cur_method Hin.
      apply String.eqb_neq. by apply Hnodo. }
    assert (Halias : find_alias all_methods s = Some (name, provider)).
    { unfold find_alias. rewrite Hsplit. apply find_first_match.
      - intros cur_method Hin. apply andb_false_iff.
        destruct (String.prefix "alias_" cur_method.1) eqn:Hp; [right|by left].
        apply String.eqb_neq. by apply Hfirst.
      - simpl. rewrite Hprefix. simpl. by apply String.eqb_eq. }
    intros depth. cbn [_find_command]. by rewrite Hdo, Halias. }
  split; [exact Hstep|]. intros r. split.
  - intros [[|depth] Hrun]; [done|]. exists depth. by rewrite <- Hstep.
  - intros [depth Hrun]. exists (S depth). by rewrite Hstep.
Qed.

Lemma alias_resolves_as_target_witness :
  (forall depth,
     _find_command (S depth) (builtin_methods 1 0) "!"
     = _find_command depth (builtin_methods 1 0) "native_shell")
  /\ (forall r,
       (exists depth, _find_command depth (builtin_methods 1 0) "!" = Ok r)
       <-> (exists depth,
              _find_command depth (builtin_methods 1 0) "native_shell" = Ok r)).
Proof.
  apply (alias_resolves_as_target (builtin_methods 1 0)
           (take 3 (builtin_methods 1 0)) []
           "alias_native_shell" (plain_method "alias_native_shell" [] "!")).
  - reflexivity.
  - reflexivity.
  - intros cur_method Hin.
    repeat (apply elem_of_cons in Hin as [->|Hin]; [discriminate|]).
    by apply elem_of_nil in Hin.
  - intros cur_method Hin.
    repeat (apply elem_of_cons in Hin as [->|Hin]; [discriminate|]).
    by apply elem_of_nil in Hin.
Defined.

(** C8, as stated, fails: [alias_foo] reports [f] and stands for [foo],
    yet resolving [f] returns the handler [do_f] and resolving [foo]
    returns [do_foo]. *)
Lemma shadowed_alias_counterexample :
  (exists provider,
      ("alias_foo", provider) ∈ shadow_shell
      /\ returns provider = "f" /\ alias_target "alias_foo" = "foo")
  /\ (exists func,
      _find_command 2 shadow_shell "f" = Ok (Some func) /\ __name__ func = "do_f")
  /\ (exists func,
      _find_command 2 shadow_shell "foo" = Ok (Some func)
      /\ __name__ func = "do_foo").
Proof.
  split; [|split].
  - exists (plain_method "alias_foo" [] "f"). split; [|done].
    unfold shadow_shell. do 2 apply list_elem_of_further. apply list_elem_of_here.
  - by eexists.
  - by eexists.
Qed.

(** ** History scopes *)

Lemma history_enter_lines (entries : list string) (b : backend) :
  foldl (fun b line => add_history line b) b entries
  = with_history (history b ++ entries) b.
Proof.
  revert b. induction entries as [|line entries IH]; intros b; simpl.
  - rewrite app_nil_r. by destruct b.
  - rewrite IH. unfold add_history, with_history. simpl.
    by rewrite <- app_assoc.
Qed.








(** Without a history file the scope cannot be entered: the helper fails
    on [os.path.exists(None)], in a nested scope after the buffer of the
    parent was cleared. *)
Lemma scope_without_history_file (parent : list string) (key : string)
    (callback : nat) (old_completer : option nat) (binds : list string)
    (fs : gmap string (list string)) (temp_name : string) (body : RL unit) :
  parent <> [] ->
  exists after,
    auto_complete_manager true temp_name key callback None body
      {| history := parent; completer := old_completer; bindings := binds;
         files := fs |}
    = (Raise TypeError, after)
    /\ history after = [].
Proof.
  intros Hne. destruct parent as [|p0 parent']; [done|].
  unfold auto_complete_manager. simpl. by eexists.
Qed.




(** A nested scope whose block fails: the callback is back and the history
    file of the child is written, but the buffer stays the one of the
    child, and the copy of the parent's buffer is removed with the
    temporary file. *)
Lemma nested_scope_failure (parent entries : list string) (e : exn)
    (key : string) (callback : nat) (old_completer : option nat)
    (binds : list string) (fs : gmap string (list string))
    (path temp_name : string) :
  parent <> [] -> temp_name <> path ->
  exists after,
    auto_complete_manager true temp_name key callback (Some path)
      (enter_lines_then_fail entries e)
      {| history := parent; completer := old_completer; bindings := binds;
         files := fs |}
    = (Raise e, after)
    /\ history after = file_entries (default [] (fs !! path)) ++ entries
    /\ completer after = old_completer
    /\ files after !! temp_name = None.
Proof.
  intros Hne Htemp.
  unfold auto_complete_manager. simpl.
  destruct parent as [|p0 parent']; [done|]. simpl length. simpl Nat.eqb. cbv iota.
  unfold _autocomplete_helper, path_exists, read_history_file, write_history_file,
    clear_history, with_files, with_history, enter_lines_then_fail. simpl.
  rewrite !lookup_insert_ne by done.
  destruct (fs !! path) as [old|] eqn:Hold; simpl;
    rewrite history_enter_lines; simpl;
    (eexists; split; [reflexivity|]);
    (split; [by destruct (String.eqb path "")|]);
    (split; [by destruct (String.eqb path "")|]);
    destruct (String.eqb path ""); simpl; by rewrite lookup_delete_eq.
Qed.

(** C4 at a failing input.  The parent holds [a, b]; in the nested scope
    the line [c] is entered and the block then raises.  The exception
    leaves the scope, the callback of the parent is installed again, but the
    buffer holds [c], not [a, b], and the temporary file that held [a, b]
    is gone. *)
Lemma history_lost_on_error :
  let outcome :=
    auto_complete_manager true "tmp0" "tab" 2 (Some "child_history")
      (enter_lines_then_fail ["c"] (OtherError "boom")) parent_backend in
  outcome.1 = Raise (OtherError "boom")
  /\ history outcome.2 = ["c"]
  /\ completer outcome.2 = Some 1
  /\ files outcome.2 !! "tmp0" = None
  /\ files outcome.2 !! "child_history" = Some ["c"].
Proof. repeat split. Qed.

(** ** Line acquisition *)

Lemma next_read_stream (w : World) (self : loc) (stream : nat) :
  _input_stream (sh w self) = Some stream ->
  readline stream w =
    match next_read w self with
    | Returns line =>
        (Ok line,
         match default [] (streams w !! stream) with
         | [] => w
         | _ :: rest =>
             {| shells := shells w; streams := <[stream := rest]> (streams w);
                stdin := stdin w; trace := trace w |}
         end)
    | Raises e =>
        (Raise e,
         {| shells := shells w;
            streams := <[stream := tail (default [] (streams w !! stream))]> (streams w);
            stdin := stdin w; trace := trace w |})
    end.
Proof.
  intros Hs. unfold next_read, readline. rewrite Hs.
  by destruct (default [] (streams w !! stream)) as [|[line|e] rest].
Qed.

(** C10.  An unexpected error of the input source (an exception that is
    neither the user interrupt nor the end of input) does not leave
    [_get_input]: the error is reported, the done flag of the session is
    set, no line is returned, and the other sessions are untouched. *)
Theorem unexpected_input_error_ends_session (depth : nat) (self : loc)
    (w : World) (e : exn) :
  next_read w self = Raises e ->
  isinstance_Exception e = true -> e <> EOFError ->
  exists w',
    _get_input depth self w = (Ok None, w')
    /\ _done (sh w' self) = true
    /\ (exists earlier,
         trace w' = earlier ++
           [Output ERROR "Unexpected error during input sequence: %s" [VExn e]])
    /\ (forall l, l <> self -> sh w' l = sh w l).
Proof.
  intros Hnext Hexc Hneof. unfold _get_input, _get_input_try.
  destruct (_input_stream (sh w self)) as [stream|] eqn:Hs.
  - unfold bind at 1. rewrite (next_read_stream w self stream Hs), Hnext.
    destruct e; try discriminate; try congruence;
      (eexists; split; [reflexivity|]; split; [apply done_set_done_eq|];
       split; [by eexists|]; intros l Hl; by rewrite sh_set_done_ne).
  - unfold input. unfold next_read in Hnext. rewrite Hs in Hnext. simpl.
    destruct (stdin w) as [|[line|e'] rest]; try discriminate.
    + injection Hnext as <-. congruence.
    + injection Hnext as ->.
      destruct e; try discriminate; try congruence;
        (eexists; split; [reflexivity|]; split; [apply done_set_done_eq|];
         split; [by eexists|]; intros l Hl; by rewrite sh_set_done_ne).
Qed.

Lemma unexpected_input_error_ends_session_witness :
  exists w',
    _get_input 1 0 (console_world [Raises OSError]) = (Ok None, w')
    /\ _done (sh w' 0) = true
    /\ (exists earlier,
         trace w' = earlier ++
           [Output ERROR "Unexpected error during input sequence: %s" [VExn OSError]])
    /\ (forall l, l <> 0 -> sh w' l = sh (console_world [Raises OSError]) l).
Proof.
  apply (unexpected_input_error_ends_session 1 0 (console_world [Raises OSError]) OSError);
    [reflexivity|reflexivity|discriminate].
Defined.

(** ** The done flag *)

Lemma done_monotone_refl (w : World) : done_monotone w w.
Proof. by intros l. Qed.

Lemma done_monotone_trans (w1 w2 w3 : World) :
  done_monotone w1 w2 -> done_monotone w2 w3 -> done_monotone w1 w3.
Proof. intros H12 H23 l Hl. by apply H23, H12. Qed.

Lemma done_monotone_shells (w w' : World) :
  shells w' = shells w -> done_monotone w w'.
Proof. intros Heq l. unfold sh. by rewrite Heq. Qed.

Lemma done_monotone_set_done (w : World) (self : loc) :
  done_monotone w (set_done self w).
Proof. intros l. apply done_set_done_mono. Qed.

Lemma done_monotone_set_done_emit (w : World) (self : loc) (e : event) :
  done_monotone w (set_done self (emit e w)).
Proof. intros l Hl. by apply done_set_done_mono. Qed.

Lemma do_exit_keeps_done (depth : nat) (self : loc) : keeps_done (do_exit depth self).
Proof.
  revert self. induction depth as [|depth IH]; intros self w; [apply done_monotone_refl|].
  simpl. unfold bind, debug.
  destruct (_parent (sh (set_done self w) self)) as [parent|].
  - eapply done_monotone_trans; [apply done_monotone_set_done|apply IH].
  - apply done_monotone_set_done.
Qed.

Lemma do_close_keeps_done (self : loc) : keeps_done (do_close self).
Proof. intros w. apply done_monotone_set_done. Qed.

Lemma get_input_try_shells (self : loc) (w : World) :
  shells (_get_input_try self w).2 = shells w.
Proof.
  unfold _get_input_try. destruct (_input_stream (sh w self)) as [stream|].
  - unfold bind, readline.
    destruct (default [] (streams w !! stream)) as [|[line|e] rest]; try done.
    simpl. destruct (String.eqb line ""); [done|].
    unfold info, print_percent. by destruct (percent _ _).
  - unfold input. simpl. by destruct (stdin w) as [|[line|e] rest].
Qed.

Lemma get_input_keeps_done (depth : nat) (self : loc) :
  keeps_done (_get_input depth self).
Proof.
  intros w. unfold _get_input.
  pose proof (get_input_try_shells self w) as Hsh.
  destruct (_get_input_try self w) as [[line|e] w1]; simpl in Hsh.
  - by apply done_monotone_shells.
  - apply (done_monotone_trans _ w1); [by apply done_monotone_shells|].
    destruct e; simpl; try apply done_monotone_refl;
      try apply done_monotone_set_done; try apply done_monotone_set_done_emit.
    unfold bind. pose proof (do_exit_keeps_done depth self w1) as Hexit.
    by destruct (do_exit depth self w1) as [[[]|e] w2].
Qed.

(** A line that is returned leaves every session as it was. *)
Lemma get_input_line_shells (depth : nat) (self : loc) (w w1 : World)
    (line : string) :
  _get_input depth self w = (Ok (Some line), w1) -> shells w1 = shells w.
Proof.
  unfold _get_input. pose proof (get_input_try_shells self w) as Hsh.
  destruct (_get_input_try self w) as [[l|e] w']; simpl in Hsh.
  - by intros [= _ <-].
  - destruct e; simpl; try discriminate.
    unfold bind. by destruct (do_exit depth self w') as [[[]|e] w2].
Qed.

Lemma execute_command_keeps_done (func : method) (parser : ParseResults) :
  (forall args, keeps_done (action func args)) ->
  keeps_done (_execute_command func parser).
Proof.
  intros Hact w. rewrite execute_command_calls. unfold call.
  destruct (binds_positional func (length (params_to_pass func parser))).
  - pose proof (Hact (params_to_pass func parser)
                  (emit (Invoke (__name__ func) (params_to_pass func parser)) w)) as Hrun.
    destruct (action func _ _) as [[[]|e] wh]; simpl in *;
      [exact Hrun|].
    destruct e; simpl; intros l Hl; exact (Hrun l Hl).
  - by apply done_monotone_shells.
Qed.

Lemma check_and_execute_keeps_done (func : method) (parser : ParseResults) :
  (forall args, keeps_done (action func args)) ->
  keeps_done (check_and_execute func parser).
Proof.
  intros Hact w. unfold check_and_execute, bind, _check_params.
  destruct ((_count_params func =? 0)%nat && negb (length (params parser) =? 0)%nat);
    [by apply done_monotone_shells|].
  destruct (length (params parser) <? _count_required_params func)%nat;
    [by apply done_monotone_shells|].
  simpl. by apply execute_command_keeps_done.
Qed.

(** What resolution returns is a member of the shell. *)
Lemma find_command_member (all_methods : list (string * method)) (depth : nat)
    (command_name : string) (func : method) :
  _find_command depth all_methods command_name = Ok (Some func) ->
  exists name, (name, func) ∈ all_methods.
Proof.
  revert command_name. induction depth as [|depth IH]; intros name; [done|]. simpl.
  destruct (find_do all_methods name) as [[n m]|] eqn:Hdo.
  - intros [= <-]. apply find_some in Hdo as [Hin _].
    exists n. by apply list_elem_of_In.
  - destruct (find_alias all_methods name); [apply IH|done].
Qed.

(** ** The session loop *)

Section Loop.

Variable parseString : string -> ParseResults + ParseException.
Variable expandvars : string -> string.

Lemma dispatch_line_keeps_done (depth : nat) (all_methods : list (string * method))
    (line : string) :
  (forall cur_method args, cur_method ∈ all_methods ->
     keeps_done (action cur_method.2 args)) ->
  keeps_done (dispatch_line parseString depth all_methods line).
Proof.
  intros Hact w. unfold dispatch_line, _parse_line, bind, debug. simpl.
  destruct (parseString line) as [parser|err]; simpl;
    [|by apply done_monotone_shells].
  destruct (_find_command depth all_methods (command parser)) as [[func|]|e] eqn:Hfind;
    try by apply done_monotone_shells.
  apply find_command_member in Hfind as [name Hin].
  apply (done_monotone_trans _ (emit (Tokenize line) w));
    [by apply done_monotone_shells|].
  apply check_and_execute_keeps_done. intros args. by apply (Hact (name, func)).
Qed.

Lemma run_iteration_keeps_done (depth : nat) (all_methods : list (string * method))
    (self : loc) :
  (forall cur_method args, cur_method ∈ all_methods ->
     keeps_done (action cur_method.2 args)) ->
  keeps_done (run_iteration parseString expandvars depth all_methods self).
Proof.
  intros Hact w. unfold run_iteration, bind.
  pose proof (get_input_keeps_done depth self w) as Hin.
  destruct (_get_input depth self w) as [[[line|]|e] w1]; simpl in Hin; try exact Hin.
  destruct (String.eqb line ""); [exact Hin|].
  destruct (String.prefix (comment_delimiter (sh w1 self)) line); [exact Hin|].
  eapply done_monotone_trans; [exact Hin|]. by apply dispatch_line_keeps_done.
Qed.

Lemma run_loop_keeps_done (steps depth : nat) (all_methods : list (string * method))
    (self : loc) (w w' : World) (r : result unit) :
  (forall cur_method args, cur_method ∈ all_methods ->
     keeps_done (action cur_method.2 args)) ->
  run_loop parseString expandvars steps depth all_methods self w = Some (r, w') ->
  done_monotone w w'.
Proof.
  intros Hact. revert w. induction steps as [|steps IH]; intros w; simpl.
  - destruct (_done (sh w self)); [|done]. intros [= _ <-]. apply done_monotone_refl.
  - destruct (_done (sh w self)); [intros [= _ <-]; apply done_monotone_refl|].
    pose proof (run_iteration_keeps_done depth all_methods self Hact w) as Hit.
    destruct (run_iteration _ _ _ _ _ w) as [[[]|e] w1]; simpl in Hit.
    + intros Hrun. eapply done_monotone_trans; [exact Hit|by apply IH].
    + by intros [= _ <-].
Qed.

Lemma run_setup_done (self : loc) (input_stream : option nat) (parent : option loc)
    (w : World) (l : loc) :
  _done (sh (run_setup self input_stream parent w).2 l) = _done (sh w l).
Proof.
  unfold run_setup.
  set (w1 := set_shell self _ w).
  assert (Hw1 : _done (sh w1 l) = _done (sh w l)).
  { unfold w1. destruct (decide (self = l)) as [->|Hne].
    - by rewrite sh_set_shell_eq.
    - by rewrite sh_set_shell_ne. }
  destruct (banner_text (sh w1 self)) as [text|]; [|done].
  destruct (String.eqb text ""); [done|].
  unfold info, print_percent. by destruct (percent text []).
Qed.

(** The set-up reads nothing and prints at most the banner; it returns
    unless the banner cannot be rendered. *)
Lemma run_setup_returns (self : loc) (input_stream : option nat)
    (parent : option loc) (w : World) :
  exists w1,
    run_setup self input_stream parent w = (banner_outcome (sh w self), w1)
    /\ stdin w1 = stdin w /\ streams w1 = streams w
    /\ (trace w1 = trace w
        \/ exists text, trace w1 = trace w ++ [Output INFO text []]).
Proof.
  unfold run_setup, banner_outcome. set (w1 := set_shell self _ w).
  assert (Hbanner : banner_text (sh w1 self) = banner_text (sh w self))
    by (unfold w1; by rewrite sh_set_shell_eq).
  rewrite Hbanner.
  destruct (banner_text (sh w self)) as [text|]; [|by exists w1; auto].
  destruct (String.eqb_spec text "") as [->|Htext]; [by exists w1; auto|].
  unfold info, print_percent.
  destruct (percent text []) as [[]|e]; eexists; (split; [reflexivity|]); simpl; eauto.
Qed.

(** C9.  The done flag only goes from false to true.  No engine operation
    resets it: not [do_exit], [do_close] or line acquisition; not the
    invocation of a handler, nor a run of the loop, as long as the bodies
    of the handlers do not reset it themselves.  And [run] on a session
    whose done flag is set does not enter the loop: nothing is read from
    the console or from a stream, the flag stays set and at most the banner
    is printed; [run] returns, unless the [%] operator fails on the banner,
    whose exception then leaves [run]. *)
Theorem done_flag_monotone :
  (forall depth self, keeps_done (do_exit depth self))
  /\ (forall self, keeps_done (do_close self))
  /\ (forall depth self, keeps_done (_get_input depth self))
  /\ (forall func parser,
        (forall args, keeps_done (action func args)) ->
        keeps_done (_execute_command func parser))
  /\ (forall steps depth all_methods self input_stream parent w r w',
        (forall cur_method args, cur_method ∈ all_methods ->
           keeps_done (action cur_method.2 args)) ->
        run parseString expandvars steps depth all_methods self input_stream parent w
          = Some (r, w') ->
        done_monotone w w')
  /\ (forall steps depth all_methods self input_stream parent w,
        _done (sh w self) = true ->
        exists w',
          run parseString expandvars steps depth all_methods self input_stream parent w
            = Some (banner_outcome (sh w self), w')
          /\ _done (sh w' self) = true
          /\ stdin w' = stdin w /\ streams w' = streams w
          /\ (trace w' = trace w
              \/ exists text, trace w' = trace w ++ [Output INFO text []])).
Proof.
  split; [exact do_exit_keeps_done|].
  split; [exact do_close_keeps_done|].
  split; [exact get_input_keeps_done|].
  split; [exact execute_command_keeps_done|].
  split.
  - intros steps depth all_methods self input_stream parent w r w' Hact. unfold run.
    pose proof (run_setup_done self input_stream parent w) as Hdone.
    destruct (run_setup self input_stream parent w) as [[[]|e] w1]; simpl in Hdone.
    + intros Hrun. apply (done_monotone_trans _ w1).
      * intros l Hl. by rewrite Hdone.
      * by eapply run_loop_keeps_done.
    + intros [= _ <-]. intros l Hl. by rewrite Hdone.
  - intros steps depth all_methods self input_stream parent w Hdone. unfold run.
    destruct (run_setup_returns self input_stream parent w) as (w1 & Hset & Hin & Hst & Htr).
    pose proof (run_setup_done self input_stream parent w self) as Hd.
    rewrite Hset in *. simpl in Hd. rewrite Hdone in Hd.
    exists w1. split; [|done].
    destruct (banner_outcome (sh w self)) as [[]|e]; [|done].
    destruct steps; simpl; by rewrite Hd.
Qed.

End Loop.

(** A banner with a percent sign: [run] on the done session reads
    nothing, prints nothing and raises what the [%] operator raises. *)
Example stray_percent_in_banner :
  run spec_parser (fun s => s) 1 1 (builtin_methods 1 0) 0 None None banner_world
  = Some (Raise TypeError, banner_world).
Proof. reflexivity. Qed.

Lemma get_input_line_trace (depth : nat) (self : loc) (w w1 : World)
    (line : string) :
  _get_input depth self w = (Ok (Some line), w1) ->
  trace w1 = trace w ++ [Prompt (prompt (sh w self))]
  \/ trace w1 = trace w ++ [Output INFO (prompt (sh w self) +:+ line) []].
Proof.
  unfold _get_input, _get_input_try.
  destruct (_input_stream (sh w self)) as [stream|].
  - unfold bind, readline.
    destruct (default [] (streams w !! stream)) as [|[l|e] rest]; simpl.
    + unfold bind. pose proof (do_exit_keeps_done depth self w) as _.
      by destruct (do_exit depth self w) as [[[]|e] w2].
    + destruct (String.eqb l "") eqn:Hl; simpl.
      * unfold bind. by destruct (do_exit depth self _) as [[[]|e] w2].
      * unfold info, print_percent.
        destruct (percent (prompt (sh w self) +:+ l) []) as [[]|e]; simpl.
        -- intros [= <- <-]. by right.
        -- destruct e; simpl; try discriminate.
           unfold bind. by destruct (do_exit depth self _) as [[[]|e] w2].
    + destruct e; simpl; try discriminate.
      unfold bind. by destruct (do_exit depth self _) as [[[]|e] w2].
  - unfold input. simpl. destruct (stdin w) as [|[l|e] rest]; simpl.
    + unfold bind. by destruct (do_exit depth self _) as [[[]|e] w2].
    + intros [= <- <-]. by left.
    + destruct e; simpl; try discriminate.
      unfold bind. by destruct (do_exit depth self _) as [[[]|e] w2].
Qed.

Section Dispatch.

Variable parseString : string -> ParseResults + ParseException.
Variable expandvars : string -> string.

Lemma run_iteration_dispatches (depth : nat) (all_methods : list (string * method))
    (self : loc) (w w1 : World) (line : string) :
  _get_input depth self w = (Ok (Some line), w1) ->
  line <> "" ->
  String.prefix (comment_delimiter (sh w1 self)) line = false ->
  run_iteration parseString expandvars depth all_methods self w
  = dispatch_line parseString depth all_methods (expandvars line) w1.
Proof.
  intros Hin Hline Hcomment. unfold run_iteration, bind. rewrite Hin.
  destruct (String.eqb_spec line "") as [|_]; [done|]. by rewrite Hcomment.
Qed.

Lemma run_loop_continues (steps depth : nat) (all_methods : list (string * method))
    (self : loc) (w w' : World) :
  _done (sh w self) = false ->
  run_iteration parseString expandvars depth all_methods self w = (Ok tt, w') ->
  run_loop parseString expandvars (S steps) depth all_methods self w
  = run_loop parseString expandvars steps depth all_methods self w'.
Proof. intros Hdone Hit. cbn [run_loop]. by rewrite Hdone, Hit. Qed.

(** C7, amended.  A line returned by the acquisition step that is empty, or
    that starts with the comment delimiter, ends the pass there: the pass
    is the acquisition alone, whatever the tokenizer and the commands of
    the shell are.  Nothing is tokenized, resolved or invoked and no error
    is reported: the trace grows by the prompt, or by the echo of the line
    read from a stream, and nothing else. *)
Theorem comment_and_empty_lines_discarded (depth : nat)
    (all_methods : list (string * method)) (self : loc) (w w1 : World)
    (line : string) :
  _get_input depth self w = (Ok (Some line), w1) ->
  line = "" \/ String.prefix (comment_delimiter (sh w1 self)) line = true ->
  run_iteration parseString expandvars depth all_methods self w = (Ok tt, w1)
  /\ shells w1 = shells w
  /\ (trace w1 = trace w ++ [Prompt (prompt (sh w self))]
      \/ trace w1 = trace w ++ [Output INFO (prompt (sh w self) +:+ line) []]).
Proof.
  intros Hin Hskip. split; [|split].
  - unfold run_iteration, bind. rewrite Hin.
    destruct (String.eqb_spec line "") as [|Hne]; [done|].
    destruct Hskip as [|Hcomment]; [done|]. by rewrite Hcomment.
  - by eapply get_input_line_shells.
  - by eapply get_input_line_trace.
Qed.

(** The first thing done with a line to be run is to tokenize it. *)
Lemma dispatch_line_tokenizes (depth : nat) (all_methods : list (string * method))
    (line : string) (w : World) :
  exists later,
    trace (_parse_line parseString line w).2 = trace w ++ Tokenize line :: later.
Proof.
  unfold _parse_line, bind, debug. simpl.
  destruct (parseString line) as [parser|err]; simpl.
  - by exists [].
  - eexists. by rewrite <- !app_assoc.
Qed.

Lemma check_params_rejects (func : method) (parser : ParseResults) (w : World) :
  (_count_params func = 0 /\ length (params parser) <> 0)
  \/ length (params parser) < _count_required_params func ->
  exists message args,
    _check_params func parser w = (Ok false, emit (Output ERROR message args) w).
Proof.
  intros Harity. unfold _check_params.
  destruct ((_count_params func =? 0)%nat && negb (length (params parser) =? 0)%nat)
    eqn:Hnone; [by do 2 eexists|].
  destruct (Nat.ltb_spec (length (params parser)) (_count_required_params func));
    [by do 2 eexists|].
  destruct Harity as [[HT Hk]|Hlt]; [|lia].
  apply andb_false_iff in Hnone as [Hnone|Hnone].
  - apply Nat.eqb_neq in Hnone. lia.
  - apply negb_false_iff, Nat.eqb_eq in Hnone. lia.
Qed.

(** C6, as the code has it.  Per-iteration error containment.  Take a pass
    of the loop in which a line to be run was acquired.  If the tokenizer
    rejects the line, if no command is found, if the arity check fails, or
    if the call of the handler raises an error (an exception deriving from
    [Exception]), then the pass returns normally: the failure is reported
    at error level, nothing but the report is added to what was there (the
    sessions are as they were, or as the handler left them when it failed),
    and when the done flag was not set the loop goes on to its next pass.
    A failure of the resolution of the command is not contained: the call
    of [_find_command] (line 229) is in no [try] block, and what it raises
    leaves the pass and the loop, nothing being reported. *)
Theorem per_iteration_error_containment (depth : nat)
    (all_methods : list (string * method)) (self : loc) (w w1 : World)
    (line : string) :
  _get_input depth self w = (Ok (Some line), w1) ->
  line <> "" ->
  String.prefix (comment_delimiter (sh w1 self)) line = false ->
  let w2 := emit (Tokenize (expandvars line)) w1 in
  let contained (w' : World) (report : list event) (before : World) :=
    run_iteration parseString expandvars depth all_methods self w = (Ok tt, w')
    /\ shells w' = shells before
    /\ trace w' = trace before ++ report
    /\ (_done (sh w self) = false ->
        forall steps,
          run_loop parseString expandvars (S steps) depth all_methods self w
          = run_loop parseString expandvars steps depth all_methods self w') in
  shells w2 = shells w
  /\ (forall err, parseString (expandvars line) = inr err ->
      exists w',
        contained w'
          [Output ERROR "Parsing error:" [];
           Output ERROR (String TAB "%s") [VStr (pstr err)];
           Output ERROR (String TAB "%s^") [VStr (str_repeat " " (col err - 1))]] w2)
  /\ (forall parser, parseString (expandvars line) = inl parser ->
      (_find_command depth all_methods (command parser) = Ok None ->
       exists w',
         contained w'
           [Output ERROR "Command not found: %s" [VStr (command parser)]] w2)
      /\ (forall func,
          _find_command depth all_methods (command parser) = Ok (Some func) ->
          ((_count_params func = 0 /\ length (params parser) <> 0)
           \/ length (params parser) < _count_required_params func ->
           exists w' message args,
             contained w' [Output ERROR message args] w2)
          /\ (forall e wh,
              _count_required_params func <= length (params parser) ->
              (_count_params func = 0 -> length (params parser) = 0) ->
              call func (params_to_pass func parser) w2 = (Raise e, wh) ->
              isinstance_Exception e = true ->
              exists w',
                contained w'
                  [Output ERROR "Unknown error detected: %s" [VExn e]] wh))
      /\ (forall e,
          _find_command depth all_methods (command parser) = Raise e ->
          run_iteration parseString expandvars depth all_methods self w = (Raise e, w2)
          /\ (_done (sh w self) = false ->
              forall steps,
                run_loop parseString expandvars (S steps) depth all_methods self w
                = Some (Raise e, w2)))).
Proof.
  intros Hin Hline Hcomment w2 contained.
  assert (Hgoes : forall w',
    run_iteration parseString expandvars depth all_methods self w = (Ok tt, w') ->
    _done (sh w self) = false ->
    forall steps,
      run_loop parseString expandvars (S steps) depth all_methods self w
      = run_loop parseString expandvars steps depth all_methods self w').
  { intros w' Hit Hdone steps. by apply run_loop_continues. }
  pose proof (run_iteration_dispatches depth all_methods self w w1 line
                Hin Hline Hcomment) as Hrun.
  split; [by apply (get_input_line_shells depth self w w1 line)|].
  split; [|intros parser Hparse; split; [|split; [intros func Hfind; split|]]].
  - intros err Hparse.
    assert (Hit : run_iteration parseString expandvars depth all_methods self w
                  = (Ok tt,
                     emit (Output ERROR (String TAB "%s^") [VStr (str_repeat " " (col err - 1))])
                       (emit (Output ERROR (String TAB "%s") [VStr (pstr err)])
                          (emit (Output ERROR "Parsing error:" []) w2)))).
    { rewrite Hrun.
      unfold dispatch_line, _parse_line, bind, debug. simpl. by rewrite Hparse. }
    eexists. unfold contained. split; [exact Hit|]. split; [done|].
    split; [simpl; by rewrite <- !app_assoc|].
    by apply Hgoes.
  - intros Hfind.
    assert (Hit : run_iteration parseString expandvars depth all_methods self w
                  = (Ok tt,
                     emit (Output ERROR "Command not found: %s"
                                  [VStr (command parser)]) w2)).
    { rewrite Hrun.
      unfold dispatch_line, _parse_line, bind, debug. simpl. rewrite Hparse. simpl.
      by rewrite Hfind. }
    eexists. unfold contained. split; [exact Hit|]. split; [done|]. split; [done|].
    by apply Hgoes.
  - intros Harity.
    destruct (check_params_rejects func parser w2 Harity) as (message & args & Hcheck).
    assert (Hit : run_iteration parseString expandvars depth all_methods self w
                  = (Ok tt, emit (Output ERROR message args) w2)).
    { rewrite Hrun.
      unfold dispatch_line, _parse_line, bind, debug. simpl. rewrite Hparse. simpl.
      rewrite Hfind. unfold check_and_execute, bind. fold w2. by rewrite Hcheck. }
    exists (emit (Output ERROR message args) w2), message, args.
    unfold contained. split; [exact Hit|]. split; [done|]. split; [done|].
    by apply Hgoes.
  - intros e wh HR HT Hcall Hexc.
    assert (Hit : run_iteration parseString expandvars depth all_methods self w
                  = (Ok tt, emit (Output ERROR "Unknown error detected: %s" [VExn e]) wh)).
    { rewrite Hrun.
      unfold dispatch_line, _parse_line, bind, debug. simpl. rewrite Hparse. simpl.
      rewrite Hfind. unfold check_and_execute, bind. fold w2.
      rewrite check_params_accepts by done.
      rewrite execute_command_calls, Hcall. simpl. rewrite Hexc.
      by destruct e. }
    eexists. unfold contained. split; [exact Hit|]. split; [done|]. split; [done|].
    by apply Hgoes.
  - intros e Hfind.
    assert (Hit : run_iteration parseString expandvars depth all_methods self w
                  = (Raise e, w2)).
    { rewrite Hrun.
      unfold dispatch_line, _parse_line, bind, debug. simpl. rewrite Hparse. simpl.
      by rewrite Hfind. }
    split; [exact Hit|]. intros Hdone steps. cbn [run_loop]. by rewrite Hdone, Hit.
Qed.

End Dispatch.

(** ** The loop on concrete sessions *)

Lemma per_iteration_error_containment_witness :
  exists w',
    run_iteration spec_parser (fun s => s) 1 failing_shell 0
      (console_world [Returns "fail"]) = (Ok tt, w')
    /\ trace w' =
       [Prompt "> "; Tokenize "fail"; Invoke "do_fail" [];
        Output ERROR "Unknown error detected: %s" [VExn (OtherError "boom")]]
    /\ _done (sh w' 0) = false.
Proof.
  pose (w0 := console_world [Returns "fail"]).
  pose (w1 := (_get_input 1 0 w0).2).
  destruct (per_iteration_error_containment spec_parser (fun s => s) 1
              failing_shell 0 w0 w1 "fail" eq_refl ltac:(discriminate) eq_refl)
    as (_ & _ & Hcases).
  destruct (Hcases {| command := "fail"; params := [] |} eq_refl) as (_ & Hfound & _).
  destruct (Hfound _ eq_refl) as [_ Hfail].
  destruct (Hfail (OtherError "boom")
              (emit (Invoke "do_fail" []) (emit (Tokenize "fail") w1))
              (le_n 0) (fun _ => eq_refl) eq_refl eq_refl)
    as (w' & Hit & Hsh & Htr & _).
  exists w'. split; [exact Hit|]. split; [by rewrite Htr|].
  unfold sh. by rewrite Hsh.
Defined.

(** C6, where the claim fails.  The shell has the alias provider
    [alias_x], which reports [x], and no command [x]; the console gives the
    line [x].  The resolution of [x] recurses until Python raises
    [RecursionError], whatever the number of frames: the exception leaves
    [run] with the done flag of the session not set, and nothing is
    reported.  And the loop also stops without an exit, a close or a
    cancellation: a read that fails with [OSError] sets the done flag, and
    [run] returns. *)
Lemma unresolved_alias_counterexample :
  (forall steps depth,
     exists w',
       run spec_parser (fun s => s) (S steps) depth looping_shell 0 None None
         (console_world [Returns "x"])
       = Some (Raise RecursionError, w')
       /\ _done (sh w' 0) = false
       /\ trace w' = [Prompt "> "; Tokenize "x"])
  /\ (exists w',
       run spec_parser (fun s => s) 1 1 (builtin_methods 1 0) 0 None None
         (console_world [Raises OSError])
       = Some (Ok tt, w')
       /\ _done (sh w' 0) = true
       /\ trace w' =
          [Prompt "> ";
           Output ERROR "Unexpected error during input sequence: %s" [VExn OSError]]).
Proof.
  split.
  - intros steps depth.
    set (w0 := console_world [Returns "x"]).
    set (w1 := (run_setup 0 None None w0).2).
    set (w2 := (_get_input 0 0 w1).2).
    exists (emit (Tokenize "x") w2). split; [|by split].
    unfold run. replace (run_setup 0 None None w0) with (Ok tt, w1) by reflexivity.
    cbn [run_loop]. replace (_done (sh w1 0)) with false by reflexivity.
    rewrite (run_iteration_dispatches spec_parser (fun s => s) depth looping_shell
               0 w1 w2 "x"); [|reflexivity|discriminate|reflexivity].
    unfold dispatch_line, bind.
    replace (_parse_line spec_parser "x" w2)
      with (Ok (Some {| command := "x"; params := [] |}), emit (Tokenize "x") w2)
      by reflexivity.
    cbn [command]. by rewrite looping_alias_recurses.
  - eexists. split; [reflexivity|]. by split.
Qed.

Lemma comment_and_empty_lines_discarded_witness :
  let w0 := console_world [Returns "# a comment"] in
  let w1 := (_get_input 1 0 w0).2 in
  run_iteration spec_parser (fun s => s) 1 (builtin_methods 1 0) 0 w0 = (Ok tt, w1)
  /\ shells w1 = shells w0
  /\ (trace w1 = trace w0 ++ [Prompt (prompt (sh w0 0))]
      \/ trace w1 = trace w0 ++ [Output INFO (prompt (sh w0 0) +:+ "# a comment") []]).
Proof.
  apply (comment_and_empty_lines_discarded spec_parser (fun s => s) 1
           (builtin_methods 1 0) 0 (console_world [Returns "# a comment"])
           (_get_input 1 0 (console_world [Returns "# a comment"])).2
           "# a comment").
  - reflexivity.
  - right. reflexivity.
Defined.

(** C7, as stated, fails for a line of blanks.  The console returns a
    single space: the line is handed to the tokenizer, and with a tokenizer
    that finds no command in it a parse error is reported.  The same holds
    for the blank line of a stream, which reads as a newline. *)
Lemma whitespace_line_counterexample :
  trace (run_iteration spec_parser (fun s => s) 1 (builtin_methods 1 0) 0
           (console_world [Returns " "])).2
  = [Prompt "> "; Tokenize " ";
     Output ERROR "Parsing error:" [];
     Output ERROR (String TAB "%s") [VStr " "];
     Output ERROR (String TAB "%s^") [VStr ""]].
Proof. reflexivity. Qed.

(** The built-in commands never reset a done flag. *)
Lemma builtin_methods_keep_done (depth : nat) (self : loc)
    (cur_method : string * method) (args : list string) :
  cur_method ∈ builtin_methods depth self -> keeps_done (action cur_method.2 args).
Proof.
  intros Hin.
  repeat (apply elem_of_cons in Hin as [->|Hin]);
    [apply do_close_keeps_done|apply do_exit_keeps_done| | |by apply elem_of_nil in Hin];
    intros w; apply done_monotone_refl.
Qed.

(** A stream that ends makes the session, and its parents, exit. *)
Example end_of_stream_exits :
  let w0 :=
    {| shells := <[1 := {| prompt := "> "; banner_text := None; _done := false;
                           _input_stream := Some 0; _parent := Some 0;
                           comment_delimiter := "#" |}]> ∅;
       streams := <[0 := [Returns "close_me" ]]> ∅; stdin := []; trace := [] |} in
  exists w',
    run_loop spec_parser (fun s => s) 3 2 (builtin_methods 2 1) 1 w0 = Some (Ok tt, w')
    /\ _done (sh w' 1) = true /\ _done (sh w' 0) = true.
Proof. by eexists. Qed.


(** * Further properties of the engine *)

(** ** Resolution and binding *)

(** X1.  What [_find_command] returns is a member of the shell whose
    attribute name is [do_] followed by a command name: no other method of
    the shell, and no alias provider, is ever dispatched to. *)
Theorem resolution_returns_commands (all_methods : list (string * method))
    (depth : nat) (command_name : string) (func : method) :
  _find_command depth all_methods command_name = Ok (Some func) ->
  exists cmd, ("do_" +:+ cmd, func) ∈ all_methods.
Proof.
  revert command_name. induction depth as [|depth IH]; intros name; [done|].
  cbn [_find_command].
  destruct (find_do all_methods name) as [[n m]|] eqn:Hdo.
  - intros [= <-]. apply find_some in Hdo as [Hin Hname].
    apply String.eqb_eq in Hname. simpl in Hname. subst n.
    exists name. by apply list_elem_of_In.
  - destruct (find_alias all_methods name); [apply IH|done].
Qed.

Lemma resolution_returns_commands_witness :
  exists cmd,
    ("do_" +:+ cmd,
     plain_method "do_native_shell"
       [ {| param_name := "cmd"; param_kind := POSITIONAL_OR_KEYWORD;
         param_default := None |} ] "")
    ∈ builtin_methods 1 0.
Proof.
  apply (resolution_returns_commands (builtin_methods 1 0) 2 "!").
  reflexivity.
Defined.

Lemma concat_cons_nonempty (sep x : string) (l : list string) :
  l <> [] -> String.concat sep (x :: l) = x +:+ sep +:+ String.concat sep l.
Proof. by destruct l. Qed.

Lemma concat_singleton_tail (sep : string) (l1 l2 : list string) :
  l2 <> [] ->
  String.concat sep (l1 ++ [String.concat sep l2]) = String.concat sep (l1 ++ l2).
Proof.
  intros Hne. induction l1 as [|x l1 IH]; [done|].
  rewrite <- !app_comm_cons.
  rewrite !concat_cons_nonempty.
  - by rewrite IH.
  - destruct l1; [by destruct l2|done].
  - by destruct l1.
Qed.

(** X2.  Binding loses no text: the arguments passed to a handler, joined
    by single spaces, are the tokens of the line joined by single spaces,
    whatever the number of tokens and of declared parameters. *)
Theorem binding_keeps_the_text (func : method) (parser : ParseResults) :
  join " " (params_to_pass func parser) = join " " (params parser).
Proof.
  destruct (Nat.le_gt_cases (length (params parser)) (_count_params func)) as [Hle|Hgt].
  - by rewrite params_to_pass_through.
  - rewrite params_to_pass_compress by done. unfold join.
    rewrite concat_singleton_tail.
    + by rewrite take_drop.
    + intros Hnil. apply (f_equal length) in Hnil.
      rewrite length_drop in Hnil. simpl in Hnil. lia.
Qed.

(** X3.  [_execute_command] lets no error out: whatever the handler and
    the tokens, the only exceptions that leave it are those that derive
    neither from [Exception] nor from [KeyboardInterrupt]. *)
Theorem execute_command_raises_only_exits (func : method) (parser : ParseResults)
    (w w' : World) (e : exn) :
  _execute_command func parser w = (Raise e, w') ->
  e = SystemExit \/ e = GeneratorExit.
Proof.
  rewrite execute_command_calls.
  destruct (call func (params_to_pass func parser) w) as [[[]|err] w1]; [done|].
  simpl. destruct err; simpl; intros [= <- _]; auto.
Qed.

Lemma execute_command_raises_only_exits_witness :
  SystemExit = SystemExit \/ SystemExit = GeneratorExit.
Proof.
  apply (execute_command_raises_only_exits
           {| __name__ := "do_quit"; parameters := []; returns := "";
              action := fun _ => raise SystemExit |}
           {| command := "quit"; params := [] |}
           (console_world [])
           (emit (Invoke "do_quit" []) (console_world []))).
  reflexivity.
Defined.

(** ** Exit, close and line acquisition *)

Lemma same_but_done_refl (s : shell) : same_but_done s s.
Proof. by repeat split. Qed.

Lemma same_but_done_set_done (w : World) (self l : loc) :
  same_but_done (sh w l) (sh (set_done self w) l).
Proof.
  destruct (decide (self = l)) as [->|Hne].
  - unfold set_done. rewrite sh_set_shell_eq. by repeat split.
  - rewrite sh_set_done_ne by done. apply same_but_done_refl.
Qed.

Lemma same_but_done_trans (s1 s2 s3 : shell) :
  same_but_done s1 s2 -> same_but_done s2 s3 -> same_but_done s1 s3.
Proof.
  intros (H1 & H2 & H3 & H4 & H5) (G1 & G2 & G3 & G4 & G5).
  repeat split; congruence.
Qed.

Lemma do_exit_frame (depth : nat) (self : loc) (w : World) :
  streams (do_exit depth self w).2 = streams w
  /\ stdin (do_exit depth self w).2 = stdin w
  /\ trace (do_exit depth self w).2 = trace w
  /\ (forall l, same_but_done (sh w l) (sh (do_exit depth self w).2 l)).
Proof.
  revert self w. induction depth as [|depth IH]; intros self w.
  - simpl. repeat split.
  - cbn [do_exit]. unfold bind, debug.
    destruct (_parent (sh (set_done self w) self)) as [parent|].
    + destruct (IH parent (set_done self w)) as (Hs & Hi & Ht & Hsh).
      split; [exact Hs|]. split; [exact Hi|]. split; [exact Ht|].
      intros l. eapply same_but_done_trans; [apply same_but_done_set_done|apply Hsh].
    + simpl. split; [done|]. split; [done|]. split; [done|].
      intros l. apply same_but_done_set_done.
Qed.

(** X4.  [do_exit] and [do_close] write done flags and nothing else: the
    parent links, the prompts and the other attributes of every session,
    the input sources and the output are as they were, also when [do_exit]
    runs out of frames. *)
Theorem exit_and_close_write_done_flags_only (depth : nat) (self : loc) (w : World) :
  (streams (do_exit depth self w).2 = streams w
   /\ stdin (do_exit depth self w).2 = stdin w
   /\ trace (do_exit depth self w).2 = trace w
   /\ (forall l, same_but_done (sh w l) (sh (do_exit depth self w).2 l)))
  /\ (streams (do_close self w).2 = streams w
      /\ stdin (do_close self w).2 = stdin w
      /\ trace (do_close self w).2 = trace w
      /\ (forall l, same_but_done (sh w l) (sh (do_close self w).2 l))).
Proof.
  split; [apply do_exit_frame|].
  split; [done|]. split; [done|]. split; [done|].
  intros l. apply same_but_done_set_done.
Qed.

Lemma ancestors_shells (w w1 : World) (self : loc) (l : list loc) :
  shells w1 = shells w -> ancestors w1 self l <-> ancestors w self l.
Proof.
  intros Hsh. revert self. induction l as [|p l IH]; intros self; simpl;
    unfold sh; rewrite Hsh; [done|]. by rewrite IH.
Qed.

Lemma get_input_try_raises (self : loc) (w : World) (e : exn) :
  next_read w self = Raises e ->
  exists w1,
    _get_input_try self w = (Raise e, w1)
    /\ shells w1 = shells w
    /\ (trace w1 = trace w \/ trace w1 = trace w ++ [Prompt (prompt (sh w self))]).
Proof.
  unfold next_read, _get_input_try.
  destruct (_input_stream (sh w self)) as [stream|].
  - unfold bind, readline.
    destruct (default [] (streams w !! stream)) as [|[line|e'] rest]; try done.
    intros [= ->]. eexists. split; [reflexivity|]. split; [done|]. by left.
  - unfold input. simpl. destruct (stdin w) as [|[line|e'] rest]; try done.
    + intros [= <-]. eexists. split; [reflexivity|]. split; [done|]. by right.
    + intros [= ->]. eexists. split; [reflexivity|]. split; [done|]. by right.
Qed.

(** X5.  A user interrupt during the read ends the session that was
    reading and no other: [_get_input] returns no line, sets the done flag
    of the session, leaves every other session (its parents too) as it
    was, and reports nothing. *)
Theorem interrupt_ends_this_session_only (depth : nat) (self : loc) (w : World) :
  next_read w self = Raises KeyboardInterrupt ->
  exists w',
    _get_input depth self w = (Ok None, w')
    /\ _done (sh w' self) = true
    /\ (forall l, l <> self -> sh w' l = sh w l)
    /\ (trace w' = trace w \/ trace w' = trace w ++ [Prompt (prompt (sh w self))]).
Proof.
  intros Hnext.
  destruct (get_input_try_raises self w _ Hnext) as (w1 & Htry & Hsh & Htr).
  unfold _get_input. rewrite Htry.
  exists (set_done self w1). split; [done|]. split; [apply done_set_done_eq|].
  split; [|exact Htr].
  intros l Hl. rewrite sh_set_done_ne by done. unfold sh. by rewrite Hsh.
Qed.

Lemma interrupt_ends_this_session_only_witness :
  exists w',
    _get_input 1 2 {| shells := shells nested_world; streams := ∅;
                      stdin := [Raises KeyboardInterrupt]; trace := [] |}
    = (Ok None, w')
    /\ _done (sh w' 2) = true
    /\ (forall l, l <> 2 -> sh w' l = sh nested_world l)
    /\ (trace w' = [] \/ trace w' = [] ++ [Prompt "> "]).
Proof.
  apply (interrupt_ends_this_session_only 1 2
           {| shells := shells nested_world; streams := ∅;
              stdin := [Raises KeyboardInterrupt]; trace := [] |}).
  reflexivity.
Defined.

Lemma get_input_try_end (self : loc) (w : World) :
  (exists stream, _input_stream (sh w self) = Some stream
                  /\ next_read w self = Returns "")
  \/ next_read w self = Raises EOFError ->
  exists w1,
    _get_input_try self w = (Raise EOFError, w1)
    /\ shells w1 = shells w
    /\ (trace w1 = trace w \/ trace w1 = trace w ++ [Prompt (prompt (sh w self))]).
Proof.
  intros [(stream & Hs & Hnext)|Hnext]; [|by apply get_input_try_raises].
  unfold next_read in Hnext. unfold _get_input_try. rewrite Hs in *.
  unfold bind, readline.
  destruct (default [] (streams w !! stream)) as [|[line|e'] rest]; try done.
  - eexists. split; [reflexivity|]. split; [done|]. by left.
  - injection Hnext as ->. eexists. split; [reflexivity|]. split; [done|]. by left.
Qed.

(** X6.  The end of the input is an exit request: when the stream of the
    session is used up, or the read raises [EOFError], [_get_input] returns
    no line and sets the done flag of the session and of every ancestor,
    without an error report; no other session changes. *)
Theorem end_of_input_exits_all (depth : nat) (self : loc) (w : World)
    (anc : list loc) :
  (exists stream, _input_stream (sh w self) = Some stream
                  /\ next_read w self = Returns "")
  \/ next_read w self = Raises EOFError ->
  ancestors w self anc -> length anc < depth ->
  exists w',
    _get_input depth self w = (Ok None, w')
    /\ (forall x, x ∈ self :: anc -> _done (sh w' x) = true)
    /\ (forall x, x ∉ self :: anc -> sh w' x = sh w x)
    /\ (trace w' = trace w \/ trace w' = trace w ++ [Prompt (prompt (sh w self))]).
Proof.
  intros Hend Hanc Hdepth.
  destruct (get_input_try_end self w Hend) as (w1 & Htry & Hsh & Htr).
  apply (ancestors_shells w w1) in Hanc; [|done].
  destruct (do_exit_chain w1 self anc depth Hanc Hdepth)
    as (w' & Hrun & Hall & Hother & _).
  pose proof (do_exit_frame depth self w1) as (_ & _ & Htrace & _).
  rewrite Hrun in Htrace. simpl in Htrace.
  exists w'. unfold _get_input. rewrite Htry. unfold bind. rewrite Hrun.
  split; [done|]. split; [exact Hall|]. split.
  - intros x Hx. rewrite Hother by done. unfold sh. by rewrite Hsh.
  - by rewrite Htrace.
Qed.

Lemma end_of_input_exits_all_witness :
  exists w',
    _get_input 3 2 nested_world = (Ok None, w')
    /\ (forall x, x ∈ [2; 1; 0] -> _done (sh w' x) = true)
    /\ (forall x, x ∉ [2; 1; 0] -> sh w' x = sh nested_world x)
    /\ (trace w' = trace nested_world
        \/ trace w' = trace nested_world ++ [Prompt (prompt (sh nested_world 2))]).
Proof.
  apply (end_of_input_exits_all 3 2 nested_world [1; 0]).
  - right. reflexivity.
  - repeat split.
  - simpl. lia.
Defined.

(** ** Runs over a stream *)

Lemma do_exit_ok_done (depth : nat) (self : loc) (w w' : World) :
  do_exit depth self w = (Ok tt, w') -> _done (sh w' self) = true.
Proof.
  destruct depth as [|depth]; [done|]. cbn [do_exit]. unfold bind, debug.
  destruct (_parent (sh (set_done self w) self)) as [parent|].
  - intros Hrun. pose proof (do_exit_keeps_done depth parent (set_done self w)) as Hm.
    rewrite Hrun in Hm. apply Hm, done_set_done_eq.
  - intros [= <-]. apply done_set_done_eq.
Qed.

Lemma input_stream_set_done (w : World) (self l : loc) :
  _input_stream (sh (set_done self w) l) = _input_stream (sh w l).
Proof. by destruct (same_but_done_set_done w self l) as (_ & _ & H & _). Qed.

Lemma execute_command_keeps_input (self : loc) (func : method)
    (parser : ParseResults) :
  (forall args, keeps_input self (action func args)) ->
  keeps_input self (_execute_command func parser).
Proof.
  intros Hact w. rewrite execute_command_calls. unfold call.
  destruct (binds_positional func (length (params_to_pass func parser)));
    [|done].
  pose proof (Hact (params_to_pass func parser)
                (emit (Invoke (__name__ func) (params_to_pass func parser)) w)) as Hrun.
  destruct (action func _ _) as [[[]|e] wh]; simpl in *; [exact Hrun|].
  by destruct e.
Qed.

Lemma check_and_execute_keeps_input (self : loc) (func : method)
    (parser : ParseResults) :
  (forall args, keeps_input self (action func args)) ->
  keeps_input self (check_and_execute func parser).
Proof.
  intros Hact w. unfold check_and_execute, bind, _check_params.
  destruct ((_count_params func =? 0)%nat && negb (length (params parser) =? 0)%nat);
    [done|].
  destruct (length (params parser) <? _count_required_params func)%nat; [done|].
  simpl. by apply execute_command_keeps_input.
Qed.

Section Streams.

Variable parseString : string -> ParseResults + ParseException.
Variable expandvars : string -> string.

Lemma dispatch_line_keeps_input (depth : nat) (all_methods : list (string * method))
    (self : loc) (line : string) :
  (forall cur_method args, cur_method ∈ all_methods ->
     keeps_input self (action cur_method.2 args)) ->
  keeps_input self (dispatch_line parseString depth all_methods line).
Proof.
  intros Hact w. unfold dispatch_line, _parse_line, bind, debug. simpl.
  destruct (parseString line) as [parser|err]; simpl; [|done].
  destruct (_find_command depth all_methods (command parser)) as [[func|]|e] eqn:Hfind;
    try done.
  apply find_command_member in Hfind as [name Hin].
  apply (check_and_execute_keeps_input self func parser
           (fun args => Hact (name, func) args Hin) (emit (Tokenize line) w)).
Qed.

(** A pass either fails, or ends the session, or takes one read off the
    stream. *)
Lemma run_iteration_progress (depth : nat) (all_methods : list (string * method))
    (self : loc) (stream : nat) (w : World) :
  _input_stream (sh w self) = Some stream ->
  (forall cur_method args, cur_method ∈ all_methods ->
     keeps_input self (action cur_method.2 args)) ->
  match run_iteration parseString expandvars depth all_methods self w with
  | (Raise _, _) => True
  | (Ok _, w2) =>
      _done (sh w2 self) = true
      \/ (_input_stream (sh w2 self) = Some stream
          /\ S (length (pending w2 stream)) = length (pending w stream))
  end.
Proof.
  intros Hs Hact.
  assert (Hexit : forall w1,
    match (let (r, w') := do_exit depth self w1 in
           match r with
           | Ok _ => ret (None : option string) w'
           | Raise e => (Raise e, w')
           end) with
    | (Ok _, w2) => _done (sh w2 self) = true
    | (Raise _, _) => True
    end).
  { intros w1. destruct (do_exit depth self w1) as [[[]|e] w2] eqn:Hrun; [|done].
    simpl. by eapply do_exit_ok_done. }
  unfold run_iteration, _get_input, _get_input_try, bind, readline, pending.
  rewrite Hs. cbv beta.
  destruct (default [] (streams w !! stream)) as [|[line|e] rest] eqn:Hpending.
  - simpl. specialize (Hexit w).
    destruct (do_exit depth self w) as [[[]|e] w2]; [|done]. simpl in *. by left.
  - destruct (String.eqb_spec line "") as [->|Hline].
    + simpl.
      match goal with |- context [do_exit depth self ?w1] => specialize (Hexit w1) end.
      destruct (do_exit depth self _) as [[[]|e] w2]; [|done]. simpl in *. by left.
    + simpl. unfold info, print_percent.
      destruct (percent (prompt (sh w self) +:+ line) []) as [[]|e0].
      * simpl. destruct (String.eqb_spec line "") as [|_]; [done|].
        match goal with |- context [comment_delimiter (sh ?w1 self)] => set (w1' := w1) end.
        assert (Hs1 : _input_stream (sh w1' self) = Some stream) by exact Hs.
        destruct (String.prefix (comment_delimiter (sh w1' self)) line).
        -- simpl. right. split; [exact Hs1|]. by rewrite lookup_insert_eq.
        -- pose proof (dispatch_line_keeps_input depth all_methods self
                         (expandvars line) Hact w1') as [Hst Hin].
           destruct (dispatch_line _ _ _ _ w1') as [[[]|e] w2]; [|done].
           simpl in *. right. split; [congruence|].
           rewrite Hst. by rewrite lookup_insert_eq.
      * destruct e0; simpl; try done; try (left; apply done_set_done_eq).
        match goal with |- context [do_exit depth self ?w1] => specialize (Hexit w1) end.
        destruct (do_exit depth self _) as [[[]|e] w2]; [|done]. simpl in *. by left.
  - destruct e; simpl; try done;
      try (left; apply done_set_done_eq).
    match goal with |- context [do_exit depth self ?w1] => specialize (Hexit w1) end.
    destruct (do_exit depth self _) as [[[]|e] w2]; [|done]. simpl in *. by left.
Qed.

Lemma run_loop_done (steps depth : nat) (all_methods : list (string * method))
    (self : loc) (w : World) :
  _done (sh w self) = true ->
  run_loop parseString expandvars steps depth all_methods self w = Some (Ok tt, w).
Proof. intros Hd. destruct steps; simpl; by rewrite Hd. Qed.

Lemma run_loop_step (steps depth : nat) (all_methods : list (string * method))
    (self : loc) (w : World) :
  run_loop parseString expandvars (S steps) depth all_methods self w
  = if _done (sh w self) then Some (Ok tt, w)
    else match run_iteration parseString expandvars depth all_methods self w with
         | (Ok _, w') => run_loop parseString expandvars steps depth all_methods self w'
         | (Raise e, w') => Some (Raise e, w')
         end.
Proof. done. Qed.

(** X7.  A run over a stream ends: when the session reads from a stream
    and the handlers of its commands leave the streams and the choice of
    stream alone, the loop returns after at most one pass per read left in
    the stream and one more for its end. *)
Theorem run_over_a_stream_ends (depth : nat) (all_methods : list (string * method))
    (self : loc) (stream : nat) (w : World) :
  _input_stream (sh w self) = Some stream ->
  (forall cur_method args, cur_method ∈ all_methods ->
     keeps_input self (action cur_method.2 args)) ->
  exists r w',
    run_loop parseString expandvars (S (length (pending w stream))) depth
      all_methods self w = Some (r, w').
Proof.
  intros Hs Hact.
  remember (length (pending w stream)) as n eqn:Hn.
  revert w Hs Hn. induction n as [|n IH]; intros w Hs Hn;
    rewrite run_loop_step;
    (destruct (_done (sh w self)) eqn:Hd; [by eauto|]);
    pose proof (run_iteration_progress depth all_methods self stream w Hs Hact) as Hp;
    (destruct (run_iteration _ _ _ _ _ w) as [[[]|e] w2]; [|by eauto]).
  - destruct Hp as [Hdone|[_ Hlen]]; [|lia].
    rewrite run_loop_done by done. eauto.
  - destruct Hp as [Hdone|[Hs2 Hlen]].
    + rewrite run_loop_done by done. eauto.
    + apply IH; [done|lia].
Qed.

End Streams.

(** The built-in commands leave the streams and the choice of stream
    alone. *)
Lemma builtin_methods_keep_input (depth : nat) (self l : loc)
    (cur_method : string * method) (args : list string) :
  cur_method ∈ builtin_methods depth self -> keeps_input l (action cur_method.2 args).
Proof.
  intros Hin.
  repeat (apply elem_of_cons in Hin as [->|Hin]);
    [| | | |by apply elem_of_nil in Hin]; intros w; simpl; try done.
  - split; [done|]. apply input_stream_set_done.
  - destruct (do_exit_frame depth self w) as (Hs & _ & _ & Hsh).
    split; [exact Hs|]. by destruct (Hsh l) as (_ & _ & H & _).
Qed.

Lemma run_over_a_stream_ends_witness :
  exists r w',
    run_loop spec_parser (fun s => s)
      (S (length (pending (script_world [Returns "bogus"; Returns "close"]) 0)))
      2 (builtin_methods 2 1) 1 (script_world [Returns "bogus"; Returns "close"])
    = Some (r, w').
Proof.
  apply (run_over_a_stream_ends spec_parser (fun s => s) 2 (builtin_methods 2 1)
           1 0 (script_world [Returns "bogus"; Returns "close"])).
  - reflexivity.
  - intros cur_method args Hin. by apply (builtin_methods_keep_input 2 1).
Defined.

(** ** Sub-shells *)

Lemma run_setup_attributes (sub : loc) (input_stream : option nat)
    (parent : option loc) (w : World) :
  banner_outcome (sh w sub) = Ok tt ->
  exists w0,
    run_setup sub input_stream parent w = (Ok tt, w0)
    /\ streams w0 = streams w
    /\ _input_stream (sh w0 sub) = input_stream
    /\ _parent (sh w0 sub) = parent
    /\ _done (sh w0 sub) = _done (sh w sub)
    /\ comment_delimiter (sh w0 sub) = comment_delimiter (sh w sub)
    /\ prompt (sh w0 sub) = prompt (sh w sub)
    /\ (forall l, l <> sub -> sh w0 l = sh w l).
Proof.
  intros Hbanner. unfold run_setup. set (w1 := set_shell sub _ w).
  assert (H1 : sh w1 sub = _) by apply sh_set_shell_eq.
  assert (H2 : forall l, l <> sub -> sh w1 l = sh w l).
  { intros l Hl. by apply sh_set_shell_ne. }
  assert (Hb : banner_text (sh w1 sub) = banner_text (sh w sub)) by (by rewrite H1).
  unfold banner_outcome in Hbanner. rewrite Hb.
  destruct (banner_text (sh w sub)) as [text|];
    [destruct (String.eqb text "");
       [|unfold info, print_percent; rewrite Hbanner]|];
    eexists; (split; [reflexivity|]); simpl; rewrite ?sh_emit, H1; simpl;
    repeat split; done.
Qed.

Lemma ancestors_agree (w w0 : World) (self : loc) (l : list loc) :
  (forall x, x ∈ self :: l -> sh w0 x = sh w x) ->
  ancestors w self l -> ancestors w0 self l.
Proof.
  revert self. induction l as [|p l IH]; intros self Hsame; simpl.
  - by rewrite Hsame by apply list_elem_of_here.
  - intros [Hp Hanc]. rewrite Hsame by apply list_elem_of_here. split; [done|].
    apply IH; [|done]. intros x Hx. apply Hsame. by apply list_elem_of_further.
Qed.

Section Subshell.

Variable parseString : string -> ParseResults + ParseException.
Variable expandvars : string -> string.

(** A pass that reads a line naming a command without parameters and
    runs it; the handler sets the done flag, and the loop ends. *)
Lemma run_loop_one_command (steps depth : nat)
    (all_methods : list (string * method)) (sub : loc) (stream : nat)
    (w0 w' : World) (line : string) (rest : list read_event)
    (parser : ParseResults) (func : method) :
  _done (sh w0 sub) = false ->
  _input_stream (sh w0 sub) = Some stream ->
  streams w0 !! stream = Some (Returns line :: rest) ->
  line <> "" ->
  percent (prompt (sh w0 sub) +:+ line) [] = Ok tt ->
  String.prefix (comment_delimiter (sh w0 sub)) line = false ->
  parseString (expandvars line) = inl parser ->
  params parser = [] ->
  _find_command depth all_methods (command parser) = Ok (Some func) ->
  parameters func = [] ->
  action func []
    (emit (Invoke (__name__ func) [])
       (emit (Tokenize (expandvars line))
          (emit (Output INFO (prompt (sh w0 sub) +:+ line) [])
             {| shells := shells w0; streams := <[stream := rest]> (streams w0);
                stdin := stdin w0; trace := trace w0 |})))
  = (Ok tt, w') ->
  _done (sh w' sub) = true ->
  run_loop parseString expandvars (S steps) depth all_methods sub w0
  = Some (Ok tt, w').
Proof.
  intros Hd Hs Hstream Hline Hecho Hcomment Hparse Hparams Hfind Hsig Hact Hdone.
  cbn [run_loop]. rewrite Hd.
  assert (Hin : _get_input depth sub w0
                = (Ok (Some line),
                   emit (Output INFO (prompt (sh w0 sub) +:+ line) [])
                     {| shells := shells w0; streams := <[stream := rest]> (streams w0);
                        stdin := stdin w0; trace := trace w0 |})).
  { unfold _get_input, _get_input_try, bind, readline. rewrite Hs, Hstream. simpl.
    destruct (String.eqb_spec line "") as [|_]; [done|].
    unfold info, print_percent. by rewrite Hecho. }
  assert (Hit : run_iteration parseString expandvars depth all_methods sub w0
                = (Ok tt, w')).
  { rewrite (run_iteration_dispatches parseString expandvars depth all_methods sub
               w0 _ line Hin Hline Hcomment).
    unfold dispatch_line, _parse_line, bind, debug. simpl. rewrite Hparse. simpl.
    rewrite Hfind. unfold check_and_execute, bind.
    rewrite check_params_accepts;
      [|unfold _count_required_params; rewrite Hsig, Hparams; simpl; lia
       |by rewrite Hparams].
    unfold _execute_command. rewrite Hparams. unfold call, binds_positional.
    rewrite Hsig. simpl.
    by rewrite Hact. }
  rewrite Hit. by apply run_loop_done.
Qed.

(** X8.  [exit] typed in a sub-shell ends the whole stack.  The parent
    starts the sub-shell on its own stream; the banner of the sub-shell and
    the echo of the line can be printed; the next line of the stream parses
    as the command [exit], which the sub-shell resolves to the [do_exit] it
    inherits: [run_subshell] returns with the done flag set on the
    sub-shell, on the parent and on every ancestor of the parent, and only
    that one line is taken off the stream. *)
Theorem exit_in_subshell_ends_parents (steps depth : nat)
    (sub_methods : list (string * method)) (func : method) (self sub : loc)
    (stream : nat) (w : World) (line : string) (rest : list read_event)
    (anc : list loc) :
  _input_stream (sh w self) = Some stream ->
  streams w !! stream = Some (Returns line :: rest) ->
  line <> "" ->
  String.prefix (comment_delimiter (sh w sub)) line = false ->
  parseString (expandvars line) = inl {| command := "exit"; params := [] |} ->
  _find_command depth sub_methods "exit" = Ok (Some func) ->
  parameters func = [] ->
  action func [] = do_exit depth sub ->
  banner_outcome (sh w sub) = Ok tt ->
  percent (prompt (sh w sub) +:+ line) [] = Ok tt ->
  _done (sh w sub) = false ->
  ancestors w self anc -> sub ∉ self :: anc -> S (length anc) < depth ->
  exists w',
    run_subshell parseString expandvars (S steps) depth sub_methods
      self sub w = Some (Ok tt, w')
    /\ (forall x, x ∈ sub :: self :: anc -> _done (sh w' x) = true)
    /\ pending w' stream = rest.
Proof.
  intros Hs Hstream Hline Hcomment Hparse Hfind Hsig Hact Hbanner Hecho Hd
    Hanc Hfresh Hdepth.
  unfold run_subshell, run. rewrite Hs.
  destruct (run_setup_attributes sub (Some stream) (Some self) w Hbanner)
    as (w0 & Hset & Hst0 & Hin0 & Hpar0 & Hd0 & Hc0 & Hp0 & Hother0).
  rewrite Hset.
  set (w3 := emit (Invoke (__name__ func) [])
               (emit (Tokenize (expandvars line))
                  (emit (Output INFO (prompt (sh w0 sub) +:+ line) [])
                     {| shells := shells w0;
                        streams := <[stream := rest]> (streams w0);
                        stdin := stdin w0; trace := trace w0 |}))).
  assert (Hchain : ancestors w3 sub (self :: anc)).
  { split; [exact Hpar0|].
    apply (ancestors_agree w); [|done].
    intros x Hx. apply Hother0. intros ->. by apply Hfresh. }
  destruct (do_exit_chain w3 sub (self :: anc) depth Hchain)
    as (w' & Hrun & Hall & _ & _); [simpl; lia|].
  pose proof (do_exit_frame depth sub w3) as (Hstreams & _).
  rewrite Hrun in Hstreams. simpl in Hstreams.
  exists w'. split; [|split; [exact Hall|]].
  - assert (Hd' : _done (sh w0 sub) = false) by congruence.
    assert (Hstream' : streams w0 !! stream = Some (Returns line :: rest))
      by (by rewrite Hst0).
    assert (Hcomment' : String.prefix (comment_delimiter (sh w0 sub)) line = false)
      by (by rewrite Hc0).
    assert (Hecho' : percent (prompt (sh w0 sub) +:+ line) [] = Ok tt)
      by (by rewrite Hp0).
    assert (Hdone : _done (sh w' sub) = true) by apply Hall, list_elem_of_here.
    assert (Hact' : action func [] w3 = (Ok tt, w')) by (by rewrite Hact).
    exact (run_loop_one_command steps depth sub_methods
             sub stream w0 w' line rest {| command := "exit"; params := [] |}
             func Hd' Hin0 Hstream' Hline Hecho' Hcomment' Hparse eq_refl Hfind Hsig
             Hact' Hdone).
  - unfold pending. rewrite Hstreams. by rewrite lookup_insert_eq.
Qed.

(** X9.  [close] typed in a sub-shell returns to the parent.  In the same
    situation with a line that parses as the command [close], which the
    sub-shell resolves to the [do_close] it inherits, [run_subshell]
    returns with the done flag set on the sub-shell only: every other
    session is as it was, and the lines after the one that was read are
    still in the stream the parent reads. *)
Theorem close_in_subshell_returns_to_parent (steps depth : nat)
    (sub_methods : list (string * method)) (func : method) (self sub : loc)
    (stream : nat) (w : World) (line : string) (rest : list read_event) :
  _input_stream (sh w self) = Some stream ->
  streams w !! stream = Some (Returns line :: rest) ->
  line <> "" ->
  String.prefix (comment_delimiter (sh w sub)) line = false ->
  parseString (expandvars line) = inl {| command := "close"; params := [] |} ->
  _find_command depth sub_methods "close" = Ok (Some func) ->
  parameters func = [] ->
  action func [] = do_close sub ->
  banner_outcome (sh w sub) = Ok tt ->
  percent (prompt (sh w sub) +:+ line) [] = Ok tt ->
  _done (sh w sub) = false ->
  exists w',
    run_subshell parseString expandvars (S steps) depth sub_methods
      self sub w = Some (Ok tt, w')
    /\ _done (sh w' sub) = true
    /\ (forall l, l <> sub -> sh w' l = sh w l)
    /\ pending w' stream = rest.
Proof.
  intros Hs Hstream Hline Hcomment Hparse Hfind Hsig Hact Hbanner Hecho Hd.
  unfold run_subshell, run. rewrite Hs.
  destruct (run_setup_attributes sub (Some stream) (Some self) w Hbanner)
    as (w0 & Hset & Hst0 & Hin0 & Hpar0 & Hd0 & Hc0 & Hp0 & Hother0).
  rewrite Hset.
  set (w3 := emit (Invoke (__name__ func) [])
               (emit (Tokenize (expandvars line))
                  (emit (Output INFO (prompt (sh w0 sub) +:+ line) [])
                     {| shells := shells w0;
                        streams := <[stream := rest]> (streams w0);
                        stdin := stdin w0; trace := trace w0 |}))).
  exists (set_done sub w3). split; [|split; [apply done_set_done_eq|split]].
  - assert (Hd' : _done (sh w0 sub) = false) by congruence.
    assert (Hstream' : streams w0 !! stream = Some (Returns line :: rest))
      by (by rewrite Hst0).
    assert (Hcomment' : String.prefix (comment_delimiter (sh w0 sub)) line = false)
      by (by rewrite Hc0).
    assert (Hecho' : percent (prompt (sh w0 sub) +:+ line) [] = Ok tt)
      by (by rewrite Hp0).
    assert (Hact' : action func [] w3 = (Ok tt, set_done sub w3))
      by (by rewrite Hact).
    exact (run_loop_one_command steps depth sub_methods
             sub stream w0 (set_done sub w3) line rest
             {| command := "close"; params := [] |}
             func Hd' Hin0 Hstream' Hline Hecho' Hcomment' Hparse eq_refl Hfind Hsig
             Hact' (done_set_done_eq w3 sub)).
  - intros l Hl. rewrite sh_set_done_ne by done. by apply Hother0.
  - unfold pending. simpl. by rewrite lookup_insert_eq.
Qed.

End Subshell.

Lemma exit_in_subshell_ends_parents_witness :
  exists w',
    run_subshell spec_parser (fun s => s) 1 4 (builtin_methods 4 2) 1 2
      (script_world [Returns "exit"; Returns "after"]) = Some (Ok tt, w')
    /\ (forall x, x ∈ [2; 1; 0] -> _done (sh w' x) = true)
    /\ pending w' 0 = [Returns "after"].
Proof.
  apply (exit_in_subshell_ends_parents spec_parser (fun s => s) 0 4
           (builtin_methods 4 2)
           {| __name__ := "do_exit"; parameters := []; returns := "";
              action := fun _ => do_exit 4 2 |}
           1 2 0
           (script_world [Returns "exit"; Returns "after"]) "exit"
           [Returns "after"] [0]); try reflexivity; try discriminate.
  - repeat split.
  - intros Hin. repeat (apply elem_of_cons in Hin as [Hin|Hin]; [discriminate|]).
    by apply elem_of_nil in Hin.
  - simpl. lia.
Defined.

Lemma close_in_subshell_returns_to_parent_witness :
  exists w',
    run_subshell spec_parser (fun s => s) 1 1 (builtin_methods 1 2) 1 2
      (script_world [Returns "close"; Returns "after"]) = Some (Ok tt, w')
    /\ _done (sh w' 2) = true
    /\ (forall l, l <> 2 ->
        sh w' l = sh (script_world [Returns "close"; Returns "after"]) l)
    /\ pending w' 0 = [Returns "after"].
Proof.
  apply (close_in_subshell_returns_to_parent spec_parser (fun s => s) 0 1
           (builtin_methods 1 2)
           {| __name__ := "do_close"; parameters := []; returns := "";
              action := fun _ => do_close 2 |}
           1 2 0
           (script_world [Returns "close"; Returns "after"]) "close"
           [Returns "after"]); try reflexivity; discriminate.
Defined.

(** ** More on history scopes *)

Lemma truncate_history_length (l : list string) :
  length (truncate_history l) <= history_length.
Proof. unfold truncate_history. rewrite length_drop. lia. Qed.

Lemma truncate_history_suffix (l : list string) : truncate_history l `suffix_of` l.
Proof. apply suffix_drop. Qed.

Lemma helper_outline (key : string) (callback : nat)
    (path : string) (body : RL unit) (b : backend) :
  exists at_yield,
    history at_yield = history b ++ file_entries (default [] (files b !! path))
    /\ completer at_yield = Some callback
    /\ files at_yield = files b
    /\ (_autocomplete_helper key callback (Some path) body b).1 = (body at_yield).1
    /\ completer (_autocomplete_helper key callback (Some path) body b).2
       = completer b
    /\ history (_autocomplete_helper key callback (Some path) body b).2
       = history (body at_yield).2
    /\ (path <> "" ->
        files (_autocomplete_helper key callback (Some path) body b).2 !! path
        = Some (truncate_history (flat_map split_lines (history (body at_yield).2)))
        /\ length (truncate_history (flat_map split_lines (history (body at_yield).2)))
           <= 1000).
Proof.
  unfold _autocomplete_helper, path_exists, read_history_file.
  destruct (files b !! path) as [old|] eqn:Hold; simpl.
  - exists (parse_and_bind (key +:+ ": complete")
              (set_completer (Some callback)
                 (with_history (history b ++ file_entries old) b))).
    split; [done|]. split; [done|]. split; [done|].
    destruct (body _) as [outcome b2]. simpl.
    split; [done|]. split; [by destruct (String.eqb path "")|].
    split; [by destruct (String.eqb path "")|].
    intros Hp. destruct (String.eqb_spec path "") as [|_]; [done|]. simpl.
    split; [by rewrite lookup_insert_eq|apply truncate_history_length].
  - exists (parse_and_bind (key +:+ ": complete") (set_completer (Some callback) b)).
    split; [simpl; by rewrite app_nil_r|]. split; [done|]. split; [done|].
    destruct (body _) as [outcome b2]. simpl.
    split; [done|]. split; [by destruct (String.eqb path "")|].
    split; [by destruct (String.eqb path "")|].
    intros Hp. destruct (String.eqb_spec path "") as [|_]; [done|]. simpl.
    split; [by rewrite lookup_insert_eq|apply truncate_history_length].
Qed.




(** X11.  A nested scope never leaves its temporary file behind: whatever
    the block does and however it ends, and also when the scope cannot be
    entered, the file is gone when [auto_complete_manager] is left. *)
Theorem nested_scope_removes_temporary_file (temp_name key : string)
    (callback : nat) (history_file : option string) (body : RL unit)
    (b : backend) :
  history b <> [] ->
  files (auto_complete_manager true temp_name key callback history_file body b).2
    !! temp_name = None.
Proof.
  intros Hne. unfold auto_complete_manager. simpl.
  unfold get_current_history_length.
  destruct (history b) as [|h0 hs] eqn:Hh; [done|]. simpl.
  destruct (_autocomplete_helper key callback history_file body _) as [[[]|e] b1];
    simpl; [|by rewrite lookup_delete_eq].
  unfold read_history_file. simpl.
  destruct (files b1 !! temp_name); simpl; by rewrite lookup_delete_eq.
Qed.

Lemma nested_scope_removes_temporary_file_witness :
  files (auto_complete_manager true "tmp0" "tab" 2 (Some "child_history")
           (enter_lines_then_fail ["c"] (OtherError "boom")) parent_backend).2
    !! "tmp0" = None.
Proof.
  apply (nested_scope_removes_temporary_file "tmp0" "tab" 2 (Some "child_history")
           (enter_lines_then_fail ["c"] (OtherError "boom")) parent_backend).
  discriminate.
Defined.






(** ** Completion of command names *)

Lemma substring_whole (s : string) : String.substring 0 (String.length s) s = s.
Proof. induction s as [|a s IH]; [done|]. simpl. by rewrite IH. Qed.

Lemma command_of_do (c : string) : command_of ("do_" +:+ c) = c.
Proof.
  unfold command_of, str_drop. simpl. rewrite Nat.sub_0_r. apply substring_whole.
Qed.

Lemma prefix_app_inv (s1 partial name : string) :
  String.prefix (s1 +:+ partial) name = true ->
  exists c, name = s1 +:+ c /\ String.prefix partial c = true.
Proof.
  revert name. induction s1 as [|a s1 IH]; intros name.
  - intros Hp. by exists name.
  - change (String a s1 +:+ partial) with (String a (s1 +:+ partial)).
    destruct name as [|b name]; cbn [String.prefix]; [done|].
    destruct (ascii_dec a b) as [->|]; [|done].
    intros Hp. destruct (IH _ Hp) as (c & -> & Hc). by exists c.
Qed.

Lemma prefix_do_inv (partial name : string) :
  String.prefix ("do_" +:+ partial) name = true ->
  exists c, name = "do_" +:+ c /\ String.prefix partial c = true.
Proof. apply prefix_app_inv. Qed.

Lemma prefix_do (partial c : string) :
  String.prefix ("do_" +:+ partial) ("do_" +:+ c) = String.prefix partial c.
Proof. done. Qed.

Lemma find_of_member (A : Type) (f : A -> bool) (l : list A) (x : A) :
  x ∈ l -> f x = true -> exists y, List.find f l = Some y /\ f y = true.
Proof.
  induction l as [|z l IH]; intros Hin Hx; [by apply elem_of_nil in Hin|].
  simpl. destruct (f z) eqn:Hz; [by exists z|].
  apply elem_of_cons in Hin as [->|Hin]; [congruence|]. by apply IH.
Qed.

(** X14.  Completion of command names.  The candidates for a partial
    command name are exactly the names [c] that start with it and for which
    the shell has a bound method [do_c]; and every candidate is a command
    that [_find_command] resolves to a handler. *)
Theorem command_name_completion (methods functions : list (string * method))
    (partial_cmd c : string) (depth : nat) :
  (c ∈ _complete_command_names methods partial_cmd
   <-> String.prefix partial_cmd c = true
       /\ exists m, ("do_" +:+ c, m) ∈ methods)
  /\ (c ∈ _complete_command_names methods partial_cmd ->
      exists func, _find_command (S depth) (methods ++ functions) c = Ok (Some func)).
Proof.
  assert (Hiff : c ∈ _complete_command_names methods partial_cmd
                 <-> String.prefix partial_cmd c = true
                     /\ exists m, ("do_" +:+ c, m) ∈ methods).
  { unfold _complete_command_names. rewrite list_elem_of_fmap. split.
    - intros ([name m] & -> & Hin). apply list_elem_of_In, filter_In in Hin as [Hin Hp].
      simpl in *. apply prefix_do_inv in Hp as (c & -> & Hp).
      rewrite command_of_do. split; [done|]. exists m. by apply list_elem_of_In.
    - intros [Hp [m Hin]]. exists ("do_" +:+ c, m). simpl.
      split; [by rewrite command_of_do|].
      apply list_elem_of_In, filter_In. split; [by apply list_elem_of_In|].
      change (String.prefix ("do_" +:+ partial_cmd) ("do_" +:+ c) = true).
      by rewrite prefix_do. }
  split; [exact Hiff|].
  intros Hc. apply Hiff in Hc as [_ [m Hin]].
  destruct (find_of_member _
              (fun cur_method : string * method =>
                 String.eqb cur_method.1 ("do_" +:+ c))
              (methods ++ functions) ("do_" +:+ c, m)) as (y & Hfind & _).
  - apply elem_of_app. by left.
  - simpl. apply String.eqb_refl.
  - exists y.2. cbn [_find_command]. unfold find_do. by rewrite Hfind.
Qed.

(** ** Completion of parameters *)

Lemma first_param_at_begidx_some (view : line_view) (parser : ParseResults)
    (k i : nat) (ps : list string) :
  first_param_at_begidx view parser k ps = Some i ->
  k <= i
  /\ exists param,
       ps !! (i - k) = Some param
       /\ found_at_begidx view parser param = true
       /\ (forall j param', j < i - k -> ps !! j = Some param' ->
           found_at_begidx view parser param' = false).
Proof.
  revert k. induction ps as [|p ps IH]; intros k; [done|]. simpl.
  destruct (found_at_begidx view parser p) eqn:Hp.
  - intros [= <-]. split; [done|]. exists p. rewrite Nat.sub_diag.
    split; [done|]. split; [done|]. intros j param' Hj. lia.
  - intros Hrest. destruct (IH _ Hrest) as (Hle & param & Hlook & Hfound & Hfirst).
    split; [lia|]. exists param.
    replace (i - k) with (S (i - S k)) by lia.
    split; [done|]. split; [done|].
    intros [|j] param' Hj; simpl.
    + by intros [= <-].
    + apply Hfirst. lia.
Qed.

(** X15.  The parameter chosen for completion.  When
    [_get_callback_param_index] returns an index, the parameter at that
    index starts with the token being completed and stands in the edited
    line at the offset where the token starts; it does not occur in the
    line between the end of the command name and that offset (a parameter
    whose text already occurs earlier in the line is never chosen), and no
    parameter before it qualifies. *)
Theorem completion_param_index (view : line_view) (parser : ParseResults)
    (token : string) (i : nat) :
  _get_callback_param_index view parser token = Some i ->
  exists param,
    params parser !! i = Some param
    /\ String.prefix token param = true
    /\ String.substring (begidx view) (String.length param) (line_buffer view)
       = param
    /\ (forall p, String.length (command parser) <= p -> p < begidx view ->
        String.substring p (String.length param) (line_buffer view) <> param)
    /\ (forall j param', j < i -> params parser !! j = Some param' ->
        String.index (String.length (command parser)) param' (line_buffer view)
        <> Some (begidx view)).
Proof.
  unfold _get_callback_param_index.
  destruct (first_param_at_begidx view parser 0 (params parser)) as [k|] eqn:Hfirst;
    [|done].
  apply first_param_at_begidx_some in Hfirst as (_ & param & Hlook & Hfound & Hbefore).
  rewrite Nat.sub_0_r in Hlook, Hbefore. rewrite Hlook.
  destruct (String.prefix token param) eqn:Hprefix; [|done].
  intros [= <-]. exists param.
  unfold found_at_begidx in Hfound. apply bool_decide_eq_true in Hfound.
  split; [done|]. split; [done|].
  split; [by eapply index_correct1|].
  split; [by eapply index_correct2|].
  intros j param' Hj Hlook'. specialize (Hbefore j param' Hj Hlook').
  unfold found_at_begidx in Hbefore. by apply bool_decide_eq_false in Hbefore.
Qed.

Lemma completion_param_index_witness :
  exists param,
    ["foo"; "bar"] !! 1 = Some param
    /\ String.prefix "ba" param = true
    /\ String.substring 7 (String.length param) "cp foo bar" = param
    /\ (forall p, String.length "cp" <= p -> p < 7 ->
        String.substring p (String.length param) "cp foo bar" <> param)
    /\ (forall j param', j < 1 -> ["foo"; "bar"] !! j = Some param' ->
        String.index (String.length "cp") param' "cp foo bar" <> Some 7).
Proof.
  apply (completion_param_index
           {| line_buffer := "cp foo bar"; begidx := 7 |}
           {| command := "cp"; params := ["foo"; "bar"] |} "ba" 1).
  reflexivity.
Defined.

(** ** The completion callback *)

Section Callback.

Variable parseString : string -> ParseResults + ParseException.

(** X16.  The callback hands out the candidates one per call.  On a line
    that is not empty, a call with index 0 computes the candidates, stores
    them and returns the first one; every call with a later index returns
    the stored candidate of that index, and nothing from the number of
    candidates on, without computing anything or touching the output,
    whatever token it is given. *)
Theorem completion_enumerates_matches (methods : list (string * method))
    (attributes : gmap string attribute) (view : line_view) (token : string)
    (latest : option (list string)) (matches : list string) (w w' : World) :
  line_buffer view <> "" ->
  _get_completion_matches parseString methods attributes view token w
  = (Ok (Some matches), w') ->
  _complete_callback parseString methods attributes view token 0 latest w
  = (Ok (matches !! 0, Some matches), w')
  /\ (forall index token' w'',
        index <> 0 ->
        _complete_callback parseString methods attributes view token' index
          (Some matches) w''
        = (Ok (matches !! index, Some matches), w'')).
Proof.
  intros Hline Hmatches. unfold _complete_callback, _complete_callback_try.
  destruct (line_buffer view) as [|c0 rest]; [done|]. split.
  - simpl. unfold bind. rewrite Hmatches. by destruct matches.
  - intros index token' w'' Hindex.
    destruct (Nat.eqb_spec index 0) as [|_]; [done|]. simpl.
    destruct (Nat.leb_spec (length matches) index) as [Hge|Hlt]; simpl; [|done].
    by rewrite lookup_ge_None_2.
Qed.

(** X17.  Errors stay inside the callback.  On an empty line the callback
    returns no candidate, whatever the index and the token, although the
    candidates for the empty command name would be all the commands; a call
    with a later index before any call with index 0 returns no candidate;
    and no exception deriving from [Exception] ever leaves the callback.
    The stored candidates and the output are untouched in the first two
    cases. *)
Theorem completion_contains_errors (methods : list (string * method))
    (attributes : gmap string attribute) (view : line_view) (token : string)
    (index : nat) (latest : option (list string)) (w : World) :
  (line_buffer view = "" ->
   _complete_callback parseString methods attributes view token index latest w
   = (Ok (None, latest), w))
  /\ (index <> 0 ->
      _complete_callback parseString methods attributes view token index None w
      = (Ok (None, None), w))
  /\ (forall e w',
        _complete_callback parseString methods attributes view token index latest w
        = (Raise e, w') ->
        isinstance_Exception e = false).
Proof.
  split; [|split].
  - intros Hline. unfold _complete_callback, _complete_callback_try.
    by rewrite Hline.
  - intros Hindex. unfold _complete_callback, _complete_callback_try.
    destruct (line_buffer view); [done|].
    by destruct (Nat.eqb_spec index 0) as [|_].
  - intros e w'. unfold _complete_callback.
    destruct (_complete_callback_try _ _ _ _ _ _ _ _) as [[r|err] w1]; [done|].
    destruct (isinstance_Exception err) eqn:Herr; [done|]. by intros [= <- _].
Qed.

(** X18.  A line that does not tokenize, completed past the command
    name.  The callback returns no candidate and keeps the stored ones,
    but the tokenizer was called from [_parse_line], which reports the
    parse error through the error sink of the shell: three lines are
    written to the output while the user edits the line. *)
Theorem completion_reports_parse_errors (methods : list (string * method))
    (attributes : gmap string attribute) (view : line_view) (token : string)
    (latest : option (list string)) (w : World) (err : ParseException) :
  line_buffer view <> "" -> begidx view <> 0 ->
  parseString (line_buffer view) = inr err ->
  exists w',
    _complete_callback parseString methods attributes view token 0 latest w
    = (Ok (None, latest), w')
    /\ trace w' = trace w ++
         [Tokenize (line_buffer view);
          Output ERROR "Parsing error:" [];
          Output ERROR (String TAB "%s") [VStr (pstr err)];
          Output ERROR (String TAB "%s^") [VStr (str_repeat " " (col err - 1))]].
Proof.
  intros Hline Hbeg Hparse.
  unfold _complete_callback, _complete_callback_try.
  destruct (line_buffer view) as [|c0 rest] eqn:Hbuf; [done|]. simpl.
  unfold bind at 1, _get_completion_matches.
  destruct (Nat.eqb_spec (begidx view) 0) as [|_]; [done|].
  rewrite Hbuf. unfold bind, _parse_line, debug. simpl. rewrite Hparse. simpl.
  eexists. split; [reflexivity|]. simpl. by rewrite <- !app_assoc.
Qed.

End Callback.

Lemma completion_enumerates_matches_witness :
  _complete_callback spec_parser (take 3 (builtin_methods 1 0)) ∅
    {| line_buffer := "ex"; begidx := 0 |} "ex" 0 None (console_world [])
  = (Ok (["exit"] !! 0, Some ["exit"]), console_world [])
  /\ (forall index token' w'',
        index <> 0 ->
        _complete_callback spec_parser (take 3 (builtin_methods 1 0)) ∅
          {| line_buffer := "ex"; begidx := 0 |} token' index (Some ["exit"]) w''
        = (Ok (["exit"] !! index, Some ["exit"]), w'')).
Proof.
  apply (completion_enumerates_matches spec_parser (take 3 (builtin_methods 1 0)) ∅
           {| line_buffer := "ex"; begidx := 0 |} "ex" None ["exit"]
           (console_world []) (console_world [])).
  - discriminate.
  - reflexivity.
Defined.

Lemma completion_reports_parse_errors_witness :
  exists w',
    _complete_callback spec_parser (take 3 (builtin_methods 1 0)) ∅
      {| line_buffer := "  "; begidx := 1 |} "" 0 None (console_world [])
    = (Ok (None, None), w')
    /\ trace w' = trace (console_world []) ++
         [Tokenize "  ";
          Output ERROR "Parsing error:" [];
          Output ERROR (String TAB "%s") [VStr (pstr {| pstr := "  "; col := 1 |})];
          Output ERROR (String TAB "%s^")
            [VStr (str_repeat " " (col {| pstr := "  "; col := 1 |} - 1))]].
Proof.
  apply (completion_reports_parse_errors spec_parser (take 3 (builtin_methods 1 0)) ∅
           {| line_buffer := "  "; begidx := 1 |} "" None (console_world [])
           {| pstr := "  "; col := 1 |}).
  - discriminate.
  - discriminate.
  - reflexivity.
Defined.

(** ** Clearing the history *)

(** X19.  [clear_history] inside a scope empties the history file.  When
    the block of a scope runs [do_clear_history] and the lines [entries]
    are entered after it, the scope leaves the buffer and the history file
    with [entries] only (in the file their lines, the last 1000 of them):
    what the file held before and what was in the buffer is gone.  With
    completion disabled the command only prints a message and the backend
    is untouched. *)
Theorem clear_history_empties_the_file (key path : string) (callback : nat)
    (entries : list string) (b : backend) (w : World) :
  path <> "" ->
  let body : RL unit :=
    fun b' => enter_lines entries (do_clear_history true (w, b')).2 in
  files (_autocomplete_helper key callback (Some path) body b).2 !! path
  = Some (truncate_history (flat_map split_lines entries))
  /\ history (_autocomplete_helper key callback (Some path) body b).2 = entries
  /\ do_clear_history false (w, b)
     = (emit (Output INFO "Command completion disabled." []) w, b).
Proof.
  intros Hpath body.
  destruct (helper_outline key callback path body b)
    as (y & _ & _ & _ & _ & _ & Hhist & Hfile).
  destruct (Hfile Hpath) as [Hf _].
  assert (Hbody : history (body y).2 = entries).
  { unfold body, enter_lines, do_clear_history. simpl.
    by rewrite history_enter_lines. }
  split; [by rewrite Hf, Hbody|]. split; [by rewrite Hhist|done].
Qed.

Lemma clear_history_empties_the_file_witness :
  files (_autocomplete_helper "tab" 2 (Some "hist")
           (fun b' => enter_lines ["exit"]
                        (do_clear_history true (console_world [], b')).2)
           parent_backend).2 !! "hist"
  = Some (truncate_history (flat_map split_lines ["exit"]))
  /\ history (_autocomplete_helper "tab" 2 (Some "hist")
                (fun b' => enter_lines ["exit"]
                             (do_clear_history true (console_world [], b')).2)
                parent_backend).2 = ["exit"]
  /\ do_clear_history false (console_world [], parent_backend)
     = (emit (Output INFO "Command completion disabled." []) (console_world []),
        parent_backend).
Proof.
  apply (clear_history_empties_the_file "tab" "hist" 2 ["exit"] parent_backend
           (console_world [])).
  discriminate.
Defined.

(** ** What a handler can do to the loop *)

Section Handlers.

Variable parseString : string -> ParseResults + ParseException.
Variable expandvars : string -> string.

Lemma run_iteration_calls (depth : nat) (all_methods : list (string * method))
    (self : loc) (w w1 : World) (line : string) (parser : ParseResults)
    (func : method) :
  _get_input depth self w = (Ok (Some line), w1) ->
  line <> "" ->
  String.prefix (comment_delimiter (sh w1 self)) line = false ->
  parseString (expandvars line) = inl parser ->
  _find_command depth all_methods (command parser) = Ok (Some func) ->
  _count_required_params func <= length (params parser) ->
  (_count_params func = 0 -> length (params parser) = 0) ->
  run_iteration parseString expandvars depth all_methods self w
  = _execute_command_except
      (call func (params_to_pass func parser)
         (emit (Tokenize (expandvars line)) w1)).
Proof.
  intros Hin Hline Hcomment Hparse Hfind HR HT.
  rewrite (run_iteration_dispatches parseString expandvars depth all_methods self
             w w1 line Hin Hline Hcomment).
  unfold dispatch_line, _parse_line, bind, debug. simpl. rewrite Hparse. simpl.
  rewrite Hfind. unfold check_and_execute, bind.
  rewrite check_params_accepts by done. by rewrite execute_command_calls.
Qed.

(** X20.  A handler that leaves the interpreter ends [run].  When the call
    of the handler raises an exception that derives neither from
    [Exception] nor from [KeyboardInterrupt] ([SystemExit], for one), the
    pass and the loop pass it on to the caller of [run]: nothing is
    reported, and the world is as the handler left it. *)
Theorem handler_exit_leaves_the_loop (steps depth : nat)
    (all_methods : list (string * method)) (self : loc) (w w1 wh : World)
    (line : string) (parser : ParseResults) (func : method) (e : exn) :
  _done (sh w self) = false ->
  _get_input depth self w = (Ok (Some line), w1) ->
  line <> "" ->
  String.prefix (comment_delimiter (sh w1 self)) line = false ->
  parseString (expandvars line) = inl parser ->
  _find_command depth all_methods (command parser) = Ok (Some func) ->
  _count_required_params func <= length (params parser) ->
  (_count_params func = 0 -> length (params parser) = 0) ->
  call func (params_to_pass func parser) (emit (Tokenize (expandvars line)) w1)
  = (Raise e, wh) ->
  e = SystemExit \/ e = GeneratorExit ->
  run_loop parseString expandvars (S steps) depth all_methods self w
  = Some (Raise e, wh).
Proof.
  intros Hd Hin Hline Hcomment Hparse Hfind HR HT Hcall He.
  cbn [run_loop]. rewrite Hd.
  rewrite (run_iteration_calls depth all_methods self w w1 line parser func)
    by done.
  rewrite Hcall. by destruct He as [-> | ->].
Qed.

(** X21.  A user interrupt during a handler does not end the session.
    When the call of the handler raises [KeyboardInterrupt], the pass
    returns normally: an empty line is written to the output, the sessions
    are as the handler left them, and the loop goes on to its next pass. *)
Theorem interrupt_in_handler_continues (steps depth : nat)
    (all_methods : list (string * method)) (self : loc) (w w1 wh : World)
    (line : string) (parser : ParseResults) (func : method) :
  _done (sh w self) = false ->
  _get_input depth self w = (Ok (Some line), w1) ->
  line <> "" ->
  String.prefix (comment_delimiter (sh w1 self)) line = false ->
  parseString (expandvars line) = inl parser ->
  _find_command depth all_methods (command parser) = Ok (Some func) ->
  _count_required_params func <= length (params parser) ->
  (_count_params func = 0 -> length (params parser) = 0) ->
  call func (params_to_pass func parser) (emit (Tokenize (expandvars line)) w1)
  = (Raise KeyboardInterrupt, wh) ->
  run_iteration parseString expandvars depth all_methods self w
  = (Ok tt, emit (Output INFO "" []) wh)
  /\ run_loop parseString expandvars (S steps) depth all_methods self w
     = run_loop parseString expandvars steps depth all_methods self
         (emit (Output INFO "" []) wh).
Proof.
  intros Hd Hin Hline Hcomment Hparse Hfind HR HT Hcall.
  assert (Hit : run_iteration parseString expandvars depth all_methods self w
                = (Ok tt, emit (Output INFO "" []) wh)).
  { rewrite (run_iteration_calls depth all_methods self w w1 line parser func)
      by done.
    by rewrite Hcall. }
  split; [exact Hit|]. cbn [run_loop]. by rewrite Hd, Hit.
Qed.

End Handlers.

Lemma star_arg_raises (lo hi : Z) (args : list pyval) (e : exn) :
  star_arg lo hi args = Raise e -> format_error e.
Proof.
  unfold star_arg, format_error. intros H.
  repeat case_match; simplify_eq; auto.
Qed.

Lemma convert_raises (c : ascii) (args : list pyval) (e : exn) :
  convert c args = Raise e -> format_error e.
Proof.
  unfold convert, format_error. intros H.
  repeat case_match; simplify_eq; auto.
Qed.

Lemma format_step_raises (st : format_state) (c : ascii) (args : list pyval)
    (e : exn) :
  format_step st c args = Raise e -> format_error e.
Proof.
  unfold format_step, at_flags, at_width, at_precision, at_length, continue.
  intros H.
  repeat case_match; simplify_eq;
    eauto using star_arg_raises, convert_raises;
    unfold format_error; auto.
Qed.

(** The [%] operator raises nothing but these three exceptions. *)
Lemma percent_raises (message : string) (args : list pyval) (e : exn) :
  percent message args = Raise e -> format_error e.
Proof.
  unfold percent. generalize InText as st. revert args.
  induction message as [|c message IH]; intros args st; cbn [format_from].
  - unfold format_error. intros H. repeat case_match; simplify_eq; auto.
  - destruct (format_step st c args) as [[st' args']|e'] eqn:Hstep.
    + apply IH.
    + intros [= <-]. by eapply format_step_raises.
Qed.

(** X22.  A line that is read is returned as it is, unless it comes from a
    stream and its echo cannot be printed.  When the next read of the input
    source returns a line (not the empty string, for a stream), exactly
    that read is taken off the source.  From the console, [_get_input]
    returns the line, preceded by the prompt, and changes no session.  From
    a stream, the line is echoed after the prompt and returned, no session
    changed; but when the [%] operator fails on the prompt followed by the
    line, the exception is reported as an unexpected error, the session is
    marked done and no line is returned. *)
Theorem get_input_returns_the_line (depth : nat) (self : loc) (w : World)
    (line : string) :
  next_read w self = Returns line ->
  (_input_stream (sh w self) <> None -> line <> "") ->
  exists w',
    match _input_stream (sh w self) with
    | Some stream =>
        pending w' stream = tail (pending w stream)
        /\ stdin w' = stdin w
        /\ match percent (prompt (sh w self) +:+ line) [] with
           | Ok _ =>
               _get_input depth self w = (Ok (Some line), w')
               /\ shells w' = shells w
               /\ trace w' = trace w ++ [Output INFO (prompt (sh w self) +:+ line) []]
           | Raise e =>
               _get_input depth self w = (Ok None, w')
               /\ _done (sh w' self) = true
               /\ (forall l, l <> self -> sh w' l = sh w l)
               /\ trace w' = trace w ++
                    [Output ERROR "Unexpected error during input sequence: %s"
                            [VExn e]]
           end
    | None =>
        _get_input depth self w = (Ok (Some line), w')
        /\ shells w' = shells w
        /\ stdin w' = tail (stdin w)
        /\ streams w' = streams w
        /\ trace w' = trace w ++ [Prompt (prompt (sh w self))]
    end.
Proof.
  intros Hnext Hline. unfold next_read in Hnext.
  unfold _get_input, _get_input_try, pending.
  destruct (_input_stream (sh w self)) as [stream|].
  - unfold bind, readline.
    destruct (default [] (streams w !! stream)) as [|[l|e] rest] eqn:Hp;
      try discriminate.
    + injection Hnext as <-. by destruct Hline.
    + injection Hnext as ->.
      destruct (String.eqb_spec line "") as [->|_]; [by destruct Hline|].
      unfold info, print_percent.
      destruct (percent (prompt (sh w self) +:+ line) []) as [[]|e] eqn:Hecho.
      * eexists. split; [|split; [|split; [reflexivity|]]]; simpl; try done.
        by rewrite lookup_insert_eq.
      * apply percent_raises in Hecho.
        destruct Hecho as [->|[->| ->]];
          (eexists; split; [|split; [|split; [reflexivity|]]]; simpl;
           [by rewrite lookup_insert_eq|done|];
           split; [apply done_set_done_eq|];
           split; [|done]; intros l Hl; by rewrite sh_set_done_ne).
  - unfold input. simpl. destruct (stdin w) as [|[l|e] rest]; try discriminate.
    injection Hnext as ->. by eexists.
Qed.

Lemma get_input_returns_the_line_witness :
  exists w',
    match _input_stream (sh (script_world [Returns "help"; Returns "close"]) 1) with
    | Some stream =>
        pending w' stream
        = tail (pending (script_world [Returns "help"; Returns "close"]) stream)
        /\ stdin w' = stdin (script_world [Returns "help"; Returns "close"])
        /\ match percent
                   (prompt (sh (script_world [Returns "help"; Returns "close"]) 1)
                    +:+ "help") [] with
           | Ok _ =>
               _get_input 1 1 (script_world [Returns "help"; Returns "close"])
               = (Ok (Some "help"), w')
               /\ shells w' = shells (script_world [Returns "help"; Returns "close"])
               /\ trace w'
                  = trace (script_world [Returns "help"; Returns "close"])
                    ++ [Output INFO
                          (prompt (sh (script_world [Returns "help"; Returns "close"]) 1)
                           +:+ "help") []]
           | Raise e =>
               _get_input 1 1 (script_world [Returns "help"; Returns "close"])
               = (Ok None, w')
               /\ _done (sh w' 1) = true
               /\ (forall l, l <> 1 ->
                   sh w' l = sh (script_world [Returns "help"; Returns "close"]) l)
               /\ trace w'
                  = trace (script_world [Returns "help"; Returns "close"]) ++
                    [Output ERROR "Unexpected error during input sequence: %s"
                            [VExn e]]
           end
    | None =>
        _get_input 1 1 (script_world [Returns "help"; Returns "close"])
        = (Ok (Some "help"), w')
        /\ shells w' = shells (script_world [Returns "help"; Returns "close"])
        /\ stdin w' = tail (stdin (script_world [Returns "help"; Returns "close"]))
        /\ streams w' = streams (script_world [Returns "help"; Returns "close"])
        /\ trace w'
           = trace (script_world [Returns "help"; Returns "close"])
             ++ [Prompt (prompt (sh (script_world [Returns "help"; Returns "close"]) 1))]
    end.
Proof.
  apply (get_input_returns_the_line 1 1
           (script_world [Returns "help"; Returns "close"]) "help").
  - reflexivity.
  - discriminate.
Defined.

(** The echo of [echo 100%] after the prompt cannot be printed: the line
    is lost and the session ends. *)
Example stray_percent_ends_session :
  let w := script_world [Returns "echo 100%"; Returns "close"] in
  percent (prompt (sh w 1) +:+ "echo 100%") [] = Raise (OtherError "ValueError")
  /\ (_get_input 1 1 w).1 = Ok None
  /\ _done (sh (_get_input 1 1 w).2 1) = true
  /\ trace (_get_input 1 1 w).2
     = [Output ERROR "Unexpected error during input sequence: %s"
               [VExn (OtherError "ValueError")]].
Proof. repeat split. Qed.

Lemma handler_exit_leaves_the_loop_witness :
  run_loop spec_parser (fun s => s) 1 1 leaving_shell 0 (console_world [Returns "quit"])
  = Some (Raise SystemExit,
          emit (Invoke "do_quit" [])
            (emit (Tokenize "quit")
               (_get_input 1 0 (console_world [Returns "quit"])).2)).
Proof.
  apply (handler_exit_leaves_the_loop spec_parser (fun s => s) 0 1 leaving_shell 0
           (console_world [Returns "quit"])
           (_get_input 1 0 (console_world [Returns "quit"])).2
           (emit (Invoke "do_quit" [])
              (emit (Tokenize "quit")
                 (_get_input 1 0 (console_world [Returns "quit"])).2))
           "quit" {| command := "quit"; params := [] |}
           {| __name__ := "do_quit"; parameters := []; returns := "";
              action := fun _ => raise SystemExit |} SystemExit);
    try reflexivity; try discriminate.
  by left.
Defined.

Lemma interrupt_in_handler_continues_witness :
  run_iteration spec_parser (fun s => s) 1 leaving_shell 0
    (console_world [Returns "wait"])
  = (Ok tt,
     emit (Output INFO "" [])
       (emit (Invoke "do_wait" [])
          (emit (Tokenize "wait")
             (_get_input 1 0 (console_world [Returns "wait"])).2)))
  /\ run_loop spec_parser (fun s => s) 1 1 leaving_shell 0
       (console_world [Returns "wait"])
     = run_loop spec_parser (fun s => s) 0 1 leaving_shell 0
         (emit (Output INFO "" [])
            (emit (Invoke "do_wait" [])
               (emit (Tokenize "wait")
                  (_get_input 1 0 (console_world [Returns "wait"])).2))).
Proof.
  apply (interrupt_in_handler_continues spec_parser (fun s => s) 0 1 leaving_shell 0
           (console_world [Returns "wait"])
           (_get_input 1 0 (console_world [Returns "wait"])).2
           (emit (Invoke "do_wait" [])
              (emit (Tokenize "wait")
                 (_get_input 1 0 (console_world [Returns "wait"])).2))
           "wait" {| command := "wait"; params := [] |}
           {| __name__ := "do_wait"; parameters := []; returns := "";
              action := fun _ => raise KeyboardInterrupt |});
    try reflexivity; try discriminate.
Defined.
